(** * mDA layer: closed-form marginalized denoising autoencoder

    A shallow embedding of [mda_layer.py] (classes [FilteringDualGrouper]
    and [mDALayer]) and the properties of its fold partition, scatter
    accumulation, weight system and inference.

    Numbers are real numbers: NumPy's float64 arithmetic is idealised to
    exact arithmetic over [R], so the statements are about values and
    formulas, not about rounding.  Dense and sparse matrices are both lists
    of rows, but the model keeps track of which right operands of [+=] are
    sparse, because NumPy's in-place addition defers to a sparse operand
    and rebinds the name instead of writing the array.
    [numpy.linalg.lstsq] is a section variable; its contract, the
    minimum-norm least-squares solution, is [solves_least_squares]. *)

From Stdlib Require Import Reals Lra Lia List Arith Bool Permutation.
From Stdlib Require Import ZArith QArith Qround Epsilon.
Import ListNotations.

Open Scope R_scope.

(** ** Finite sums of reals *)

Definition Rsum (l : list R) : R := fold_right Rplus 0 l.

(** [sum_upto n f] is the sum of [f 0 .. f (n-1)]. *)
Definition sum_upto (n : nat) (f : nat -> R) : R := Rsum (map f (seq 0 n)).

(** ** Matrices as lists of rows *)

Definition matrix := list (list R).

Definition nrows (A : matrix) : nat := length A.

(** [A.shape[1]]; a matrix without rows is taken to have no columns. *)
Definition ncols (A : matrix) : nat := length (hd [] A).

(** [A[i, j]], with 0 outside the stored entries. *)
Definition get (A : matrix) (i j : nat) : R := nth j (nth i A []) 0.

(** The [n] by [m] matrix whose entry [(i, j)] is [f i j]. *)
Definition mk (n m : nat) (f : nat -> nat -> R) : matrix :=
  map (fun i => map (fun j => f i j) (seq 0 m)) (seq 0 n).

(** [A] is a rectangular [n] by [m] array. *)
Definition shaped (n m : nat) (A : matrix) : Prop :=
  length A = n /\ Forall (fun row => length row = m) A.

(** [A] is rectangular, of the shape NumPy reports for it. *)
Definition rect (A : matrix) : Prop := shaped (nrows A) (ncols A) A.

(** [np.zeros((n, m))] and [np.ones((n, m))]. *)
Definition zeros (n m : nat) : matrix := mk n m (fun _ _ => 0).
Definition ones (n m : nat) : matrix := mk n m (fun _ _ => 1).

(** [A.T] *)
Definition transpose (A : matrix) : matrix :=
  mk (ncols A) (nrows A) (fun i j => get A j i).

(** [A * c] for a scalar [c]. *)
Definition scale (A : matrix) (c : R) : matrix :=
  mk (nrows A) (ncols A) (fun i j => get A i j * c).

(** [A + B] and [A - B], element by element, on the shape of [A].  NumPy
    raises (or broadcasts) when the shapes differ; every use below is on
    equal shapes. *)
Definition madd (A B : matrix) : matrix :=
  mk (nrows A) (ncols A) (fun i j => get A i j + get B i j).

Definition msub (A B : matrix) : matrix :=
  mk (nrows A) (ncols A) (fun i j => get A i j - get B i j).

(** [A.dot(B)]: the inner dimension is the number of columns of [A]. *)
Definition mmul (A B : matrix) : matrix :=
  mk (nrows A) (ncols B)
     (fun i j => sum_upto (ncols A) (fun k => get A i k * get B k j)).

(** [A[idxs]]: the rows of [A] at the given indices, in that order.  An
    index past the last row raises IndexError in NumPy; here it selects an
    empty row. *)
Definition rows_at (A : matrix) (idxs : list nat) : matrix :=
  map (fun i => nth i A []) idxs.

(** [vstack((A, B))] *)
Definition vstack (A B : matrix) : matrix := A ++ B.

(** Element-wise application, as [np.tanh(A)]. *)
Definition mmap (f : R -> R) (A : matrix) : matrix := map (map f) A.

(** [c * A] for a scalar [c]. *)
Definition smul (c : R) (A : matrix) : matrix :=
  mk (nrows A) (ncols A) (fun i j => c * get A i j).

(** [sparse.eye(n)] *)
Definition eye (n : nat) : matrix :=
  mk n n (fun i j => if (i =? j)%nat then 1 else 0).

(** In-place assignments [A[r] = row], [A[:, c] = col], [A[r, c] = v] and
    [A[idxs, idxs] = vals] for [idxs = range(len(vals))]. *)
Definition set_row (A : matrix) (r : nat) (row : list R) : matrix :=
  mk (nrows A) (ncols A) (fun i j => if (i =? r)%nat then nth j row 0 else get A i j).

Definition set_col (A : matrix) (c : nat) (col : list R) : matrix :=
  mk (nrows A) (ncols A) (fun i j => if (j =? c)%nat then nth i col 0 else get A i j).

Definition set_entry (A : matrix) (r c : nat) (v : R) : matrix :=
  mk (nrows A) (ncols A)
     (fun i j => if ((i =? r) && (j =? c))%nat then v else get A i j).

Definition set_diag (A : matrix) (vals : list R) : matrix :=
  mk (nrows A) (ncols A)
     (fun i j => if ((i =? j) && (i <? length vals))%nat then nth i vals 0
                 else get A i j).

(** [A[r]], [A[:, c]] and [A[idxs, idxs]] for [idxs = range(n)]. *)
Definition row_of (A : matrix) (r : nat) : list R := nth r A [].
Definition col_of (A : matrix) (c : nat) : list R := map (fun row => nth c row 0) A.
Definition diag_of (A : matrix) (n : nat) : list R := map (fun i => get A i i) (seq 0 n).

(** [v[i] = x] on a vector. *)
Definition vec_set (v : list R) (i : nat) (x : R) : list R :=
  map (fun k => if (k =? i)%nat then x else nth k v 0) (seq 0 (length v)).

(** [l[a:b]] for [0 <= a]. *)
Definition py_slice {A : Type} (l : list A) (a b : nat) : list A :=
  firstn (b - a) (skipn a l).

(** [l[i] = x] on a Python list; out of range leaves the model unchanged
    (Python raises IndexError, never reached below). *)
Fixpoint update {A : Type} (l : list A) (i : nat) (x : A) : list A :=
  match l, i with
  | [], _ => []
  | _ :: t, O => x :: t
  | h :: t, S i' => h :: update t i' x
  end.

(** ** Outcomes of a Python call *)

Inductive exn : Type :=
| AssertionError
| ZeroDivisionError
| IndexError
| TypeError
| UnboundLocalError.

Inductive result (A : Type) : Type :=
| Ok (a : A)
| Raise (e : exn).

Arguments Ok {A} a.
Arguments Raise {A} e.

(** ** Corpus and chunking *)

(** A document is its column of term weights; terms past the end weigh 0. *)
Definition doc := list R.

(** [gensim.utils.grouper]: repeatedly draw [chunksize] documents from the
    iterator and stop at the first empty draw.  Returns the chunks and what
    is left in the iterator. *)
Fixpoint grouper_loop (fuel chunksize : nat) (it : list doc)
  : list (list doc) * list doc :=
  match fuel with
  | O => ([], it)
  | S fuel' =>
      match firstn chunksize it with
      | [] => ([], skipn chunksize it)
      | chunk =>
          let (chunks, rest) := grouper_loop fuel' chunksize (skipn chunksize it) in
          (chunk :: chunks, rest)
      end
  end.

Definition grouper (corpus : list doc) (chunksize : nat)
  : list (list doc) * list doc :=
  grouper_loop (S (length corpus)) chunksize corpus.

(** [matutils.corpus2csc(chunk, num_docs=len(chunk), num_terms=...)]: one
    column per document. *)
Definition corpus2csc (chunk : list doc) (num_terms : nat) : matrix :=
  mk num_terms (length chunk) (fun i k => nth i (nth k chunk []) 0).

(** One item of [FilteringDualGrouper.__iter__]: the job and its projection
    on [filter_dimensions]. *)
Definition dual_item (num_terms : nat) (filter_dimensions : option (list nat))
  (chunk : list doc) : matrix * option matrix :=
  let job := corpus2csc chunk num_terms in
  (job, match filter_dimensions with
        | Some dims => Some (rows_at job dims)
        | None => None
        end).

(** ** The layer *)

Record mDALayer : Type := {
  noise : R;
  lambda_ : R;
  input_dimensionality : nat;
  output_dimensionality : nat;
  randomized_indices : list nat;
  prototype_ids : option (list nat);
  num_folds : nat;
  blocks : list matrix
}.

(** [int(np.ceil(float(a) / b))] for [b <> 0]. *)
Definition ceil_div (a b : nat) : nat :=
  Z.to_nat (Qceiling (inject_Z (Z.of_nat a) / inject_Z (Z.of_nat b))%Q).

(** [mDALayer.__init__]; [permutation] is the value returned by
    [np.random.permutation(input_dimensionality)].  The float division
    raises ZeroDivisionError when the output dimensionality is 0. *)
Definition init (noise0 lambda0 : R) (input_dim : nat) (output_dim : option nat)
  (prototypes : option (list nat)) (permutation : list nat) : result mDALayer :=
  let same := match output_dim with
              | None => true
              | Some o => (o =? input_dim)%nat
              end in
  let out := match output_dim with
             | None => input_dim
             | Some o => if same then input_dim else o
             end in
  let indices := if same then seq 0 input_dim else permutation in
  if (out =? 0)%nat then Raise ZeroDivisionError
  else Ok {| noise := noise0;
             lambda_ := lambda0;
             input_dimensionality := input_dim;
             output_dimensionality := out;
             randomized_indices := indices;
             prototype_ids := prototypes;
             num_folds := ceil_div input_dim out;
             blocks := [] |}.

(** [randomized_indices[k * out : (k + 1) * out]] *)
Definition fold_indices (L : mDALayer) (dim_batch_idx : nat) : list nat :=
  py_slice (randomized_indices L)
           (dim_batch_idx * output_dimensionality L)
           ((dim_batch_idx + 1) * output_dimensionality L).

(** ** Training: accumulation *)

(** A fold's accumulators [(scatter, P)]; [P] is [None] without targets. *)
Definition accumulator := (matrix * option matrix)%type.

(** The body of the loop over [dim_batch_idx] for one chunk: the list it
    leaves and the values bound to the local names [scatter] and [P] at its
    end.  The pair is created and appended on the first visit, read from
    the list otherwise.  The right operands of both [+=] are SciPy sparse
    matrices ([input_chunk] comes from [scipy.sparse.vstack]): the in-place
    addition of the NumPy array defers to them, [scatter += X] evaluates
    [X.__radd__(scatter)] and binds the resulting new matrix to the local
    name, and the arrays held by the list are not written.  A target chunk
    with a stored [P] of [None] cannot occur: both follow [prototype_ids]. *)
Definition fold_body (L : mDALayer) (doc_chunk : matrix)
  (target_representation_chunk : option matrix)
  (st : list accumulator) (dim_batch_idx : nat)
  : list accumulator * accumulator :=
  let block_indices := fold_indices L dim_batch_idx in
  let block_data := rows_at doc_chunk block_indices in
  let fresh := (length st <=? dim_batch_idx)%nat in
  let size := (length block_indices + 1)%nat in
  let st1 :=
    if fresh
    then st ++ [(zeros size size,
                 match target_representation_chunk with
                 | Some _ => Some (zeros (output_dimensionality L) size)
                 | None => None
                 end)]
    else st in
  let slot := if fresh then length st else dim_batch_idx in
  let '(scatter, P) := nth slot st1 ([], None) in
  let blocksize := ncols block_data in
  let bias := ones 1 blocksize in
  let input_chunk := vstack block_data bias in
  let scatter' := madd scatter (mmul input_chunk (transpose input_chunk)) in
  let P' :=
    match target_representation_chunk, P with
    | Some T, Some P0 => Some (madd P0 (mmul T (transpose input_chunk)))
    | _, _ => P
    end in
  (st1, (scatter', P')).

(** [scatters_and_P_matrices] after the body. *)
Definition process_fold (L : mDALayer) (doc_chunk : matrix)
  (target_representation_chunk : option matrix)
  (st : list accumulator) (dim_batch_idx : nat) : list accumulator :=
  fst (fold_body L doc_chunk target_representation_chunk st dim_batch_idx).

Definition process_chunk (L : mDALayer) (st : list accumulator)
  (chunk : list doc) : list accumulator :=
  let (doc_chunk, target) :=
    dual_item (input_dimensionality L) (prototype_ids L) chunk in
  fold_left (process_fold L doc_chunk target) (seq 0 (num_folds L)) st.

(** [scatters_and_P_matrices] after the loop over the chunks. *)
Definition accumulate (L : mDALayer) (chunks : list (list doc)) : list accumulator :=
  fold_left (process_chunk L) chunks [].

(** Every value [scatters_and_P_matrices] takes during the loops, in order:
    the state after each execution of the innermost loop body. *)
Fixpoint fold_trace (L : mDALayer) (doc_chunk : matrix) (target : option matrix)
  (st : list accumulator) (folds : list nat) : list (list accumulator) :=
  match folds with
  | [] => []
  | k :: rest =>
      let st' := process_fold L doc_chunk target st k in
      st' :: fold_trace L doc_chunk target st' rest
  end.

Fixpoint accumulate_trace (L : mDALayer) (st : list accumulator)
  (chunks : list (list doc)) : list (list accumulator) :=
  match chunks with
  | [] => []
  | chunk :: rest =>
      let (doc_chunk, target) :=
        dual_item (input_dimensionality L) (prototype_ids L) chunk in
      fold_trace L doc_chunk target st (seq 0 (num_folds L))
        ++ accumulate_trace L (process_chunk L st chunk) rest
  end.

(** The values bound to the local names [scatter] and [P] at the end of
    each execution of the innermost loop body, in order. *)
Fixpoint fold_locals (L : mDALayer) (doc_chunk : matrix) (target : option matrix)
  (st : list accumulator) (folds : list nat) : list accumulator :=
  match folds with
  | [] => []
  | k :: rest =>
      snd (fold_body L doc_chunk target st k)
        :: fold_locals L doc_chunk target (process_fold L doc_chunk target st k) rest
  end.

Fixpoint accumulate_locals (L : mDALayer) (st : list accumulator)
  (chunks : list (list doc)) : list accumulator :=
  match chunks with
  | [] => []
  | chunk :: rest =>
      let (doc_chunk, target) :=
        dual_item (input_dimensionality L) (prototype_ids L) chunk in
      fold_locals L doc_chunk target st (seq 0 (num_folds L))
        ++ accumulate_locals L (process_chunk L st chunk) rest
  end.

(** ** Training: the weight system *)

(** [P[:, :-1] *= c] *)
Definition scale_cols_but_last (P : matrix) (c : R) : matrix :=
  mk (nrows P) (ncols P)
     (fun i j => if (j <? ncols P - 1)%nat then get P i j * c else get P i j).

(** The corruption vector: [(1 - noise)] everywhere, then the last entry
    set to 1. *)
Definition corruption_vector (noise0 : R) (r_dim : nat) : list R :=
  let corruption := map (fun x => x * (1 - noise0)) (repeat 1 (r_dim + 1)) in
  vec_set corruption (length corruption - 1) 1.

(** [Q] as [_computeWeights] builds it, statement by statement. *)
Definition compute_Q (noise0 : R) (scatter : matrix) : matrix :=
  let r_dim := (nrows scatter - 1)%nat in
  let corruption := corruption_vector noise0 r_dim in
  let Q := scale scatter ((1 - noise0) ^ 2) in
  let Q := set_row Q r_dim
             (map (fun x => x * (1 / (1 - noise0))) (row_of scatter r_dim)) in
  let Q := set_col Q r_dim
             (map (fun x => x * (1 / (1 - noise0))) (col_of scatter r_dim)) in
  let Q := set_entry Q (nrows Q - 1) (ncols Q - 1)
             (get scatter (nrows scatter - 1) (ncols scatter - 1)
              * (1 / (1 - noise0) ^ 2)) in
  set_diag Q (map (fun p => fst p * snd p)
                  (combine corruption (diag_of scatter (r_dim + 1)))).

(** [reg]: [eye * lambda_], then [reg[-1, -1] = 0]. *)
Definition compute_reg (lambda0 : R) (r_dim : nat) : matrix :=
  let reg := scale (eye (r_dim + 1)) lambda0 in
  set_entry reg (nrows reg - 1) (ncols reg - 1) 0.

Section Solver.

(** [lstsq a b] stands for [np.linalg.lstsq(a, b)[0]].  NumPy's solver is
    not part of this program: what it returns is fixed by its contract,
    [solves_least_squares] below, which the statements about the weights
    take as a hypothesis.  Its only failure on systems of matching shapes,
    LinAlgError when the SVD iteration does not converge, is an event of
    floating-point arithmetic and has no counterpart over [R]. *)
Variable lstsq : matrix -> matrix -> matrix.

(** [mDALayer._computeWeights]; the divisions by [1 - noise] raise
    ZeroDivisionError when [noise = 1]. *)
Definition computeWeights (L : mDALayer) (scatter P : matrix) : result matrix :=
  let r_dim := (nrows scatter - 1)%nat in
  if Req_dec_T (1 - noise L) 0 then Raise ZeroDivisionError
  else
    let Q := compute_Q (noise L) scatter in
    let reg := compute_reg (lambda_ L) r_dim in
    Ok (transpose (lstsq (madd Q reg) (transpose P))).

(** The target matrix handed to [_computeWeights]: a copy of the scatter
    matrix when [P] is [None], with all columns but the last scaled.  The
    scaling is in place on [P] or on the copy, never on the scatter. *)
Definition target_matrix (L : mDALayer) (acc : accumulator) : matrix :=
  let P := match snd acc with
           | None => fst acc
           | Some P0 => P0
           end in
  scale_cols_but_last P (1 - noise L).

(** The body of the loop over [scatters_and_P_matrices]. *)
Definition fold_weights (L : mDALayer) (acc : accumulator) : result matrix :=
  computeWeights L (fst acc) (target_matrix L acc).

(** The loop itself, appending to [self.blocks]. *)
Fixpoint solve_folds (L : mDALayer) (accs : list accumulator)
  (blocks0 : list matrix) : result (list matrix) :=
  match accs with
  | [] => Ok blocks0
  | acc :: rest =>
      match fold_weights L acc with
      | Ok weights => solve_folds L rest (blocks0 ++ [weights])
      | Raise e => Raise e
      end
  end.

Definition with_blocks (L : mDALayer) (bs : list matrix) : mDALayer :=
  {| noise := noise L;
     lambda_ := lambda_ L;
     input_dimensionality := input_dimensionality L;
     output_dimensionality := output_dimensionality L;
     randomized_indices := randomized_indices L;
     prototype_ids := prototype_ids L;
     num_folds := num_folds L;
     blocks := bs |}.

(** [mDALayer.train]: the outcome and the documents left in the corpus
    iterator.  Without any fold, [processed += blocksize] reads a variable
    the inner loop never assigned, at the end of the first chunk. *)
Definition train (L : mDALayer) (corpus : list doc) (chunksize : nat)
  : result mDALayer * list doc :=
  if negb (input_dimensionality L =? output_dimensionality L)%nat
     && match prototype_ids L with None => true | Some _ => false end
  then (Raise AssertionError, corpus)
  else
    let (chunks, rest) := grouper corpus chunksize in
    if (num_folds L =? 0)%nat
       && match chunks with [] => false | _ :: _ => true end
    then (Raise UnboundLocalError, skipn chunksize corpus)
    else
      let scatters_and_P_matrices := accumulate L chunks in
      match solve_folds L scatters_and_P_matrices (blocks L) with
      | Ok bs => (Ok (with_blocks L bs), rest)
      | Raise e => (Raise e, rest)
      end.

End Solver.

(** ** Inference *)

(** [mDALayer._get_intermediate_representations] *)
Definition get_intermediate_representations (block_weights block_input_data : matrix)
  : matrix :=
  let num_documents := ncols block_input_data in
  let bias := ones 1 num_documents in
  mmul block_weights (vstack block_input_data bias).

(** One turn of the loop of [_get_hidden_representations]: [blocks[k]]
    raises IndexError past the end of the list. *)
Definition hidden_step (L : mDALayer) (input_data : matrix)
  (representation_avg : option matrix) (dim_batch_idx : nat)
  : result (option matrix) :=
  let block_indices := fold_indices L dim_batch_idx in
  let block_data := rows_at input_data block_indices in
  match nth_error (blocks L) dim_batch_idx with
  | None => Raise IndexError
  | Some block_weights =>
      let block_hidden := get_intermediate_representations block_weights block_data in
      match representation_avg with
      | None => Ok (Some block_hidden)
      | Some avg =>
          Ok (Some (madd avg (smul (1 / INR (dim_batch_idx + 1))
                                   (msub block_hidden avg))))
      end
  end.

Fixpoint hidden_loop (L : mDALayer) (input_data : matrix)
  (representation_avg : option matrix) (folds : list nat)
  : result (option matrix) :=
  match folds with
  | [] => Ok representation_avg
  | k :: rest =>
      match hidden_step L input_data representation_avg k with
      | Ok avg' => hidden_loop L input_data avg' rest
      | Raise e => Raise e
      end
  end.

(** [mDALayer._get_hidden_representations]; [np.tanh(None)] raises
    TypeError when there is no fold.  [np.tanh] is the real hyperbolic
    tangent here: the rounding of float64, under which it returns exactly
    1.0 or -1.0 for large arguments, is not modelled. *)
Definition get_hidden_representations (L : mDALayer) (input_data : matrix)
  : result matrix :=
  match hidden_loop L input_data None (seq 0 (num_folds L)) with
  | Ok (Some representation_avg) => Ok (mmap tanh representation_avg)
  | Ok None => Raise TypeError
  | Raise e => Raise e
  end.

(** ** Reference quantities

    The quantities the statements below compare the code with. *)

(** A document's augmented feature vector on a fold: the fold's term
    weights followed by the constant 1. *)
Definition augmented (block : list nat) (d : doc) : list R :=
  map (fun i => nth i d 0) block ++ [1].

(** A document's target representation: its weights on the prototype
    dimensions. *)
Definition target_of (ids : list nat) (d : doc) : list R :=
  map (fun i => nth i d 0) ids.

(** The outer product of two vectors. *)
Definition outer (u v : list R) : matrix :=
  mk (length u) (length v) (fun i j => nth i u 0 * nth j v 0).

(** The sum over [docs] of the outer products of the augmented vectors. *)
Definition scatter_sum (block : list nat) (docs : list doc) : matrix :=
  fold_left (fun S d => madd S (outer (augmented block d) (augmented block d)))
            docs (zeros (length block + 1) (length block + 1)).

(** The sum over [docs] of the outer products of the target vector with the
    augmented vector, on [out] rows. *)
Definition cross_sum (out : nat) (ids block : list nat) (docs : list doc) : matrix :=
  fold_left (fun P d => madd P (outer (target_of ids d) (augmented block d)))
            docs (zeros out (length block + 1)).

(** The sums of fold [k] over [docs]: what the two [+=] of the loop body
    add up for those documents. *)
Definition exact_pair (L : mDALayer) (docs : list doc) (k : nat) : accumulator :=
  (scatter_sum (fold_indices L k) docs,
   match prototype_ids L with
   | Some ids => Some (cross_sum (output_dimensionality L) ids (fold_indices L k) docs)
   | None => None
   end).

(** The accumulators as the first chunk creates them: zero matrices. *)
Definition zero_accumulators (L : mDALayer) : list accumulator :=
  map (fun k =>
         let size := (length (fold_indices L k) + 1)%nat in
         (zeros size size,
          match prototype_ids L with
          | Some _ => Some (zeros (output_dimensionality L) size)
          | None => None
          end))
      (seq 0 (num_folds L)).







(** The regularisation matrix: [lambda0] on the diagonal except at the
    bias, 0 elsewhere. *)
Definition reg_spec (lambda0 : R) (n : nat) : matrix :=
  mk n n (fun i j => if ((i =? j) && negb (i =? n - 1))%nat then lambda0 else 0).

(** The target of a fold: [P], or the scatter matrix when there is none,
    with every column but the last scaled by [1 - noise0]. *)
Definition P_spec (noise0 : R) (scatter : matrix) (P : option matrix) : matrix :=
  let P0 := match P with None => scatter | Some P1 => P1 end in
  mk (nrows P0) (ncols P0)
     (fun i j => if (j =? ncols P0 - 1)%nat then get P0 i j
                 else (1 - noise0) * get P0 i j).

(** The augmented input of a fold for one chunk, the pair a fold starts
    from, and the pair the names [scatter] and [P] are bound to after the
    two [+=]. *)
Definition input_chunk_of (L : mDALayer) (doc_chunk : matrix) (k : nat) : matrix :=
  let block_data := rows_at doc_chunk (fold_indices L k) in
  vstack block_data (ones 1 (ncols block_data)).

Definition fresh_pair (L : mDALayer) (target : option matrix) (k : nat) : accumulator :=
  let size := (length (fold_indices L k) + 1)%nat in
  (zeros size size,
   match target with
   | Some _ => Some (zeros (output_dimensionality L) size)
   | None => None
   end).

Definition updated_pair (L : mDALayer) (doc_chunk : matrix) (target : option matrix)
  (k : nat) (old : accumulator) : accumulator :=
  let X := input_chunk_of L doc_chunk k in
  (madd (fst old) (mmul X (transpose X)),
   match target, snd old with
   | Some T, Some P0 => Some (madd P0 (mmul T (transpose X)))
   | _, _ => snd old
   end).

(** Every entry of [M] is 0. *)
Definition null (M : matrix) : Prop := forall i j, get M i j = 0.

(** [A] is symmetric. *)
Definition symmetric (A : matrix) : Prop := transpose A = A.

(** The quadratic form [v^T A v]. *)
Definition quad (A : matrix) (v : list R) : R :=
  sum_upto (nrows A)
    (fun i => sum_upto (ncols A) (fun j => nth i v 0 * get A i j * nth j v 0)).

(** [A] is positive semi-definite. *)
Definition psd (A : matrix) : Prop := forall v : list R, 0 <= quad A v.

(** A scatter matrix in good standing: non-empty, square, symmetric entry
    by entry and positive semi-definite. *)
Definition good (A : matrix) : Prop :=
  rect A /\ (0 < nrows A)%nat /\ nrows A = ncols A /\
  (forall i j, get A i j = get A j i) /\ psd A.

(** The invariant of the accumulator list: every scatter matrix in it is
    in good standing. *)
Definition good_pair (acc : accumulator) : Prop :=
  good (fst acc) /\
  match snd acc with
  | Some P => rect P
  | None => True
  end.

Definition all_good (st : list accumulator) : Prop := Forall good_pair st.

(** A one-dimensional layer without reduction, as [mDALayer(noise, lambda_,
    1)] builds it, and a two-dimensional one. *)
Definition layer1 (noise0 lambda0 : R) : mDALayer :=
  {| noise := noise0; lambda_ := lambda0;
     input_dimensionality := 1; output_dimensionality := 1;
     randomized_indices := [0%nat]; prototype_ids := None;
     num_folds := 1; blocks := [] |}.

Definition layer2 (noise0 lambda0 : R) : mDALayer :=
  {| noise := noise0; lambda_ := lambda0;
     input_dimensionality := 2; output_dimensionality := 2;
     randomized_indices := [0%nat; 1%nat]; prototype_ids := None;
     num_folds := 1; blocks := [] |}.

(** The assertion at the head of [train] passes. *)
Definition may_train (L : mDALayer) : Prop :=
  input_dimensionality L = output_dimensionality L \/ prototype_ids L <> None.

(** The hidden representation of fold [k]: [weights[k]] times the fold's
    rows of the input with a row of ones appended. *)
Definition fold_hidden (L : mDALayer) (input_data : matrix) (k : nat) : matrix :=
  mmul (nth k (blocks L) [])
       (vstack (rows_at input_data (fold_indices L k))
               (ones 1 (ncols input_data))).

(** The arithmetic mean over the first [m] folds of the hidden
    representations, as an [o] by [nd] matrix. *)
Definition mean_hidden (L : mDALayer) (input_data : matrix) (o nd m : nat) : matrix :=
  mk o nd (fun i j =>
    sum_upto m (fun k => get (fold_hidden L input_data k) i j) / INR m).

(** A layer holding weights for inference: at least one fold and, for
    every fold, a weight matrix of [o] rows and one column per fold
    dimension plus the bias. *)
Definition trained (L : mDALayer) (o : nat) : Prop :=
  (1 <= num_folds L)%nat /\
  forall k, (k < num_folds L)%nat ->
    exists W, nth_error (blocks L) k = Some W /\ nrows W = o /\
              ncols W = (length (fold_indices L k) + 1)%nat.

(** The weights of one fold as the solution of its system: the transposed
    solver answer to [(Q + reg) W^T = P^T]. *)
Definition system_weights (lstsq : matrix -> matrix -> matrix)
  (L : mDALayer) (acc : accumulator) : matrix :=
  transpose (lstsq (madd (compute_Q (noise L) (fst acc))
                         (reg_spec (lambda_ L) (nrows (fst acc))))
                   (transpose (P_spec (noise L) (fst acc) (snd acc)))).

(** The layers [train] and inference are meant for: positive
    dimensionalities, the fold count and a dimension permutation as the
    constructor sets them, and prototype indices, when given, that are input
    dimensions and as many as the output dimensionality (the shape of [P]). *)
Definition well_formed (L : mDALayer) : Prop :=
  (0 < input_dimensionality L)%nat /\
  (0 < output_dimensionality L)%nat /\
  num_folds L = ceil_div (input_dimensionality L) (output_dimensionality L) /\
  Permutation (randomized_indices L) (seq 0 (input_dimensionality L)) /\
  match prototype_ids L with
  | Some ids => Forall (fun i => (i < input_dimensionality L)%nat) ids /\
                length ids = output_dimensionality L
  | None => True
  end.

(** ** Basic facts on sums *)

Lemma Rsum_app (l1 l2 : list R) : Rsum (l1 ++ l2) = Rsum l1 + Rsum l2.
Proof.
  induction l1 as [|x l1 IH]; simpl.
  - lra.
  - rewrite IH. lra.
Qed.

Lemma Rsum_map_ext {A : Type} (f g : A -> R) (l : list A) :
  (forall x, In x l -> f x = g x) -> Rsum (map f l) = Rsum (map g l).
Proof.
  induction l as [|x l IH]; simpl; intros H; [reflexivity|].
  rewrite (H x) by (left; reflexivity).
  rewrite IH; [reflexivity|]. intros y Hy. apply H. right. exact Hy.
Qed.

Lemma Rsum_map_plus {A : Type} (f g : A -> R) (l : list A) :
  Rsum (map (fun x => f x + g x) l) = Rsum (map f l) + Rsum (map g l).
Proof.
  induction l as [|x l IH]; simpl; [lra|]. rewrite IH. lra.
Qed.

Lemma Rsum_map_scal {A : Type} (c : R) (f : A -> R) (l : list A) :
  Rsum (map (fun x => c * f x) l) = c * Rsum (map f l).
Proof.
  induction l as [|x l IH]; simpl; [lra|]. rewrite IH. lra.
Qed.

Lemma Rsum_map_scal_r {A : Type} (c : R) (f : A -> R) (l : list A) :
  Rsum (map (fun x => f x * c) l) = Rsum (map f l) * c.
Proof.
  induction l as [|x l IH]; simpl; [lra|]. rewrite IH. lra.
Qed.

Lemma Rsum_map_zero {A : Type} (l : list A) :
  Rsum (map (fun _ => 0) l) = 0.
Proof.
  induction l as [|x l IH]; simpl; [reflexivity|]. rewrite IH. lra.
Qed.

Lemma Rsum_map_nonneg {A : Type} (f : A -> R) (l : list A) :
  (forall x, In x l -> 0 <= f x) -> 0 <= Rsum (map f l).
Proof.
  induction l as [|x l IH]; simpl; intros H; [lra|].
  assert (0 <= f x) by (apply H; left; reflexivity).
  assert (0 <= Rsum (map f l)) by (apply IH; intros y Hy; apply H; right; exact Hy).
  lra.
Qed.

(** Exchange of two finite sums. *)
Lemma Rsum_swap {A B : Type} (f : A -> B -> R) (la : list A) (lb : list B) :
  Rsum (map (fun a => Rsum (map (fun b => f a b) lb)) la) =
  Rsum (map (fun b => Rsum (map (fun a => f a b) la)) lb).
Proof.
  induction la as [|a la IH]; simpl.
  - symmetry. apply Rsum_map_zero.
  - rewrite IH. symmetry. apply Rsum_map_plus.
Qed.

(** A sum over the positions of a list is the sum over its elements. *)
Lemma Rsum_seq_nth {A : Type} (d : A) (f : A -> R) (l : list A) :
  Rsum (map (fun k => f (nth k l d)) (seq 0 (length l))) = Rsum (map f l).
Proof.
  induction l as [|x l IH]; simpl; [reflexivity|].
  rewrite <- seq_shift, map_map. simpl. rewrite IH. reflexivity.
Qed.

(** ** Basic facts on matrices *)

Lemma nrows_mk n m f : nrows (mk n m f) = n.
Proof. unfold nrows, mk. rewrite length_map, length_seq. reflexivity. Qed.

Lemma ncols_mk n m f : (0 < n)%nat -> ncols (mk n m f) = m.
Proof.
  intros Hn. unfold ncols, mk. destruct n as [|n]; [lia|].
  simpl. rewrite length_map, length_seq. reflexivity.
Qed.

Lemma get_mk n m f i j :
  (i < n)%nat -> (j < m)%nat -> get (mk n m f) i j = f i j.
Proof.
  intros Hi Hj. unfold get, mk.
  rewrite (nth_indep _ [] (map (fun j0 => f 0%nat j0) (seq 0 m)))
    by (rewrite length_map, length_seq; exact Hi).
  rewrite (map_nth (fun i0 => map (fun j0 => f i0 j0) (seq 0 m)) (seq 0 n) 0%nat i).
  rewrite seq_nth by exact Hi. simpl.
  rewrite (nth_indep _ 0 (f i 0%nat))
    by (rewrite length_map, length_seq; exact Hj).
  rewrite (map_nth (fun j0 => f i j0) (seq 0 m) 0%nat j).
  rewrite seq_nth by exact Hj. reflexivity.
Qed.

Lemma get_row_out (A : matrix) i j : (nrows A <= i)%nat -> get A i j = 0.
Proof.
  intros H. unfold get. rewrite (nth_overflow A) by exact H.
  destruct j; reflexivity.
Qed.

Lemma mk_ext n m f g :
  (forall i j, (i < n)%nat -> (j < m)%nat -> f i j = g i j) ->
  mk n m f = mk n m g.
Proof.
  intros H. unfold mk. apply map_ext_in. intros i Hi.
  apply map_ext_in. intros j Hj.
  apply in_seq in Hi. apply in_seq in Hj. apply H; lia.
Qed.

Lemma shaped_mk n m f : shaped n m (mk n m f).
Proof.
  split; [apply nrows_mk|]. unfold mk. apply Forall_forall.
  intros row Hrow. apply in_map_iff in Hrow. destruct Hrow as [i [<- _]].
  rewrite length_map, length_seq. reflexivity.
Qed.

Lemma list_eq_nth {A : Type} (d : A) (l : list A) :
  map (fun k => nth k l d) (seq 0 (length l)) = l.
Proof.
  induction l as [|x l IH]; simpl; [reflexivity|].
  rewrite <- seq_shift, map_map. simpl. rewrite IH. reflexivity.
Qed.

Lemma mk_get n m (A : matrix) : shaped n m A -> mk n m (get A) = A.
Proof.
  intros [Hn Hm]. subst n. unfold mk, get.
  transitivity (map (fun k => nth k A []) (seq 0 (length A)));
    [|apply list_eq_nth].
  apply map_ext_in. intros i Hi. apply in_seq in Hi.
  assert (Hlen : length (nth i A []) = m).
  { rewrite Forall_forall in Hm. apply Hm. apply nth_In. lia. }
  rewrite <- Hlen. apply list_eq_nth.
Qed.

Lemma shaped_ext n m (A B : matrix) :
  shaped n m A -> shaped n m B ->
  (forall i j, (i < n)%nat -> (j < m)%nat -> get A i j = get B i j) ->
  A = B.
Proof.
  intros HA HB H. rewrite <- (mk_get n m A HA), <- (mk_get n m B HB).
  apply mk_ext. exact H.
Qed.

Lemma shaped_nrows n m A : shaped n m A -> nrows A = n.
Proof. intros [H _]. exact H. Qed.

Lemma shaped_ncols n m A : (0 < n)%nat -> shaped n m A -> ncols A = m.
Proof.
  intros Hn [Hl Hf]. unfold ncols. destruct A as [|row A]; simpl in *; [lia|].
  inversion Hf; assumption.
Qed.

(** ** The constructor: number of folds and fold partition *)

Lemma ceil_div_spec (a b : nat) :
  (0 < b)%nat ->
  (a <= ceil_div a b * b)%nat /\
  (forall k, (a <= k * b)%nat -> (ceil_div a b <= k)%nat).
Proof.
  intros Hb. unfold ceil_div.
  assert (Hc : Qceiling (inject_Z (Z.of_nat a) / inject_Z (Z.of_nat b))%Q
               = (- ((- Z.of_nat a) / Z.of_nat b))%Z).
  { destruct b as [|b']; [lia|].
    unfold Qceiling, Qfloor, Qdiv, Qmult, Qinv, Qopp, inject_Z. simpl.
    rewrite Z.mul_1_r. reflexivity. }
  rewrite Hc. clear Hc.
  set (za := Z.of_nat a). set (zb := Z.of_nat b).
  assert (Hzb : (0 < zb)%Z) by (unfold zb; lia).
  assert (Hza : (0 <= za)%Z) by (unfold za; lia).
  pose proof (Z.div_mod (- za) zb ltac:(lia)) as Hdm.
  pose proof (Z.mod_pos_bound (- za) zb Hzb) as Hmod.
  set (q := ((- za) / zb)%Z) in *. set (r := ((- za) mod zb)%Z) in *.
  assert (Hq : (q <= 0)%Z) by nia.
  split.
  - apply Nat2Z.inj_le. rewrite Nat2Z.inj_mul, Z2Nat.id by lia.
    fold za zb. nia.
  - intros k Hk. apply Nat2Z.inj_le. rewrite Z2Nat.id by lia.
    apply Nat2Z.inj_le in Hk. rewrite Nat2Z.inj_mul in Hk. fold za zb in Hk.
    nia.
Qed.

Lemma ceil_div_same (n : nat) : (0 < n)%nat -> ceil_div n n = 1%nat.
Proof.
  intros Hn. destruct (ceil_div_spec n n Hn) as [H1 H2].
  specialize (H2 1%nat ltac:(lia)).
  destruct (ceil_div n n) as [|c]; [simpl in H1; lia|lia].
Qed.

Lemma firstn_plus {A : Type} (a b : nat) (l : list A) :
  firstn (a + b) l = firstn a l ++ firstn b (skipn a l).
Proof.
  revert l. induction a as [|a IH]; intros l; simpl; [reflexivity|].
  destruct l as [|x l]; simpl.
  - rewrite firstn_nil. reflexivity.
  - rewrite IH. reflexivity.
Qed.

Lemma py_slice_block {A : Type} (l : list A) (k o : nat) :
  py_slice l (k * o) ((k + 1) * o) = firstn o (skipn (k * o) l).
Proof. unfold py_slice. f_equal. lia. Qed.

Lemma concat_slices {A : Type} (l : list A) (o m : nat) :
  concat (map (fun k => py_slice l (k * o) ((k + 1) * o)) (seq 0 m))
  = firstn (m * o) l.
Proof.
  induction m as [|m IH].
  - reflexivity.
  - rewrite seq_S, map_app, concat_app, IH. simpl.
    rewrite app_nil_r, py_slice_block.
    replace (o + m * o)%nat with (m * o + o)%nat by lia.
    symmetry. apply firstn_plus.
Qed.

Lemma In_py_slice {A : Type} (d : A) (l : list A) (a b : nat) (x : A) :
  In x (py_slice l a b) ->
  exists p, (a <= p < b)%nat /\ (p < length l)%nat /\ nth p l d = x.
Proof.
  unfold py_slice. intros H.
  apply (In_nth _ _ d) in H. destruct H as [p [Hp Hx]].
  rewrite length_firstn, length_skipn in Hp.
  rewrite nth_firstn in Hx.
  destruct (p <? b - a)%nat eqn:E; [|apply Nat.ltb_ge in E; lia].
  rewrite nth_skipn in Hx.
  exists (a + p)%nat. repeat split; try lia. exact Hx.
Qed.

Lemma length_py_slice {A : Type} (l : list A) (a b : nat) :
  length (py_slice l a b) = Nat.min (b - a) (length l - a).
Proof. unfold py_slice. rewrite length_firstn, length_skipn. reflexivity. Qed.

Lemma init_Ok noise0 lambda0 n o protos perm L :
  init noise0 lambda0 n o protos perm = Ok L ->
  input_dimensionality L = n /\
  (0 < output_dimensionality L)%nat /\
  num_folds L = ceil_div n (output_dimensionality L) /\
  blocks L = [] /\ prototype_ids L = protos /\
  noise L = noise0 /\ lambda_ L = lambda0 /\
  match o with
  | None => output_dimensionality L = n /\ randomized_indices L = seq 0 n
  | Some o' =>
      if (o' =? n)%nat
      then output_dimensionality L = n /\ randomized_indices L = seq 0 n
      else output_dimensionality L = o' /\ randomized_indices L = perm
  end.
Proof.
  unfold init. intros H.
  destruct o as [o'|].
  - destruct (o' =? n)%nat eqn:E.
    + destruct (n =? 0)%nat eqn:E0; [discriminate|].
      apply Nat.eqb_neq in E0. inversion H; subst; simpl.
      repeat split; try reflexivity; lia.
    + destruct (o' =? 0)%nat eqn:E0; [discriminate|].
      apply Nat.eqb_neq in E0. inversion H; subst; simpl.
      repeat split; try reflexivity; lia.
  - destruct (n =? 0)%nat eqn:E0; [discriminate|].
    apply Nat.eqb_neq in E0. inversion H; subst; simpl.
    repeat split; try reflexivity; lia.
Qed.

Lemma init_indices_perm noise0 lambda0 n o protos perm L :
  Permutation perm (seq 0 n) ->
  init noise0 lambda0 n o protos perm = Ok L ->
  Permutation (randomized_indices L) (seq 0 n).
Proof.
  intros Hperm H. apply init_Ok in H.
  destruct H as (_ & _ & _ & _ & _ & _ & _ & H).
  destruct o as [o'|]; [destruct (o' =? n)%nat|];
    destruct H as [_ ->]; auto using Permutation_refl.
Qed.

(** C5. A constructed layer has [num_folds] equal to the ceiling of
    [input_dimensionality / output_dimensionality] (the least [k] with
    [input <= k * output]); its folds, the consecutive slices of the
    dimension permutation of length [output_dimensionality] (the last one
    possibly shorter), concatenate to the permutation, are pairwise disjoint
    and contain every index below [input_dimensionality] exactly once; and
    when the output dimensionality is unspecified or equal to the input one,
    there is one fold and the permutation is the identity ordering. *)
Theorem folds_partition noise0 lambda0 n o protos perm L :
  Permutation perm (seq 0 n) ->
  init noise0 lambda0 n o protos perm = Ok L ->
  let out := output_dimensionality L in
  let folds := map (fold_indices L) (seq 0 (num_folds L)) in
  ((n <= num_folds L * out)%nat /\
   forall k, (n <= k * out)%nat -> (num_folds L <= k)%nat) /\
  (forall k, (k < num_folds L)%nat ->
     length (fold_indices L k) = Nat.min out (n - k * out)) /\
  concat folds = randomized_indices L /\
  Permutation (concat folds) (seq 0 n) /\
  (forall j k i, (j < k < num_folds L)%nat ->
     In i (fold_indices L j) -> ~ In i (fold_indices L k)) /\
  ((o = None \/ o = Some n) ->
     num_folds L = 1%nat /\ randomized_indices L = seq 0 n).
Proof.
  intros Hperm Hinit out folds.
  pose proof (init_indices_perm _ _ _ _ _ _ _ Hperm Hinit) as HP.
  pose proof (init_Ok _ _ _ _ _ _ _ Hinit) as
    (Hn & Hout & Hnf & _ & _ & _ & _ & Hcase).
  fold out in Hout, Hnf.
  pose proof (ceil_div_spec n out Hout) as [Hc1 Hc2]. rewrite <- Hnf in Hc1, Hc2.
  assert (Hlen : length (randomized_indices L) = n).
  { rewrite (Permutation_length HP). apply length_seq. }
  assert (Hcat : concat folds = randomized_indices L).
  { unfold folds, fold_indices. fold out.
    rewrite (concat_slices (randomized_indices L) out (num_folds L)).
    apply firstn_all2. lia. }
  repeat split.
  - exact Hc1.
  - exact Hc2.
  - intros k Hk. unfold fold_indices. fold out.
    rewrite length_py_slice, Hlen. f_equal. lia.
  - exact Hcat.
  - rewrite Hcat. exact HP.
  - intros j k i Hjk Hj Hk.
    apply (In_py_slice 0%nat) in Hj. apply (In_py_slice 0%nat) in Hk.
    destruct Hj as [p [Hp [Hpl Hpx]]]. destruct Hk as [q [Hq [Hql Hqx]]].
    fold out in Hp, Hq.
    assert (Hnd : NoDup (randomized_indices L)).
    { apply (Permutation_NoDup (Permutation_sym HP)). apply seq_NoDup. }
    assert (p = q).
    { apply (proj1 (NoDup_nth (randomized_indices L) 0%nat) Hnd); lia. }
    nia.
  - destruct H as [-> | ->].
    + destruct Hcase as [Ho _]. fold out in Ho. rewrite Hnf, Ho.
      apply ceil_div_same. lia.
    + rewrite Nat.eqb_refl in Hcase. destruct Hcase as [Ho _].
      fold out in Ho. rewrite Hnf, Ho. apply ceil_div_same. lia.
  - destruct H as [-> | ->].
    + apply Hcase.
    + rewrite Nat.eqb_refl in Hcase. apply Hcase.
Qed.

Lemma folds_partition_witness :
  let L := {| noise := 0; lambda_ := 0; input_dimensionality := 5;
              output_dimensionality := 2;
              randomized_indices := [3; 0; 4; 1; 2]%nat;
              prototype_ids := Some [0; 1]%nat;
              num_folds := ceil_div 5 2; blocks := [] |} in
  Permutation (concat (map (fold_indices L) (seq 0 (num_folds L)))) (seq 0 5).
Proof.
  intros L.
  assert (HP : Permutation [3; 0; 4; 1; 2]%nat (seq 0 5)).
  { simpl.
    apply Permutation_sym.
    apply (Permutation_cons_app [3]%nat [4; 1; 2]%nat 0%nat). simpl.
    apply (Permutation_cons_app [3; 4]%nat [2]%nat 1%nat). simpl.
    apply (Permutation_cons_app [3; 4]%nat []%nat 2%nat). simpl.
    apply Permutation_refl. }
  assert (HI : init 0 0 5 (Some 2%nat) (Some [0; 1]%nat) [3; 0; 4; 1; 2]%nat = Ok L)
    by reflexivity.
  exact (proj1 (proj2 (proj2 (proj2
           (folds_partition 0 0 5%nat (Some 2%nat) (Some [0; 1]%nat)
                            [3; 0; 4; 1; 2]%nat L HP HI))))).
Defined.

(** ** Shapes and entries of the matrix operations *)

Lemma rect_mk n m f : rect (mk n m f).
Proof.
  unfold rect. rewrite nrows_mk. destruct n as [|n].
  - split; [reflexivity|constructor].
  - rewrite ncols_mk by lia. apply shaped_mk.
Qed.

Lemma rect_get (A : matrix) : rect A -> mk (nrows A) (ncols A) (get A) = A.
Proof. apply mk_get. Qed.

Lemma shaped_rect n m A : shaped n m A -> rect A.
Proof.
  intros H. unfold rect. rewrite (shaped_nrows _ _ _ H).
  destruct n as [|n].
  - destruct H as [Hl _]. destruct A; [|discriminate]. split; [reflexivity|constructor].
  - rewrite (shaped_ncols (S n) m A) by (lia || exact H). exact H.
Qed.

Lemma nth_map_scale (c : R) (l : list R) (j : nat) :
  nth j (map (fun x => x * c) l) 0 = nth j l 0 * c.
Proof.
  rewrite <- (map_nth (fun x => x * c) l 0 j). f_equal. lra.
Qed.

Lemma nth_col_of (A : matrix) (c i : nat) : nth i (col_of A c) 0 = get A i c.
Proof.
  unfold col_of, get.
  rewrite <- (map_nth (fun row : list R => nth c row 0) A [] i).
  f_equal. destruct c; reflexivity.
Qed.

Ltac mshape :=
  repeat (rewrite nrows_mk in * || (rewrite ncols_mk in * by lia)).

Lemma length_corruption_vector noise0 r :
  length (corruption_vector noise0 r) = (r + 1)%nat.
Proof.
  unfold corruption_vector, vec_set.
  rewrite length_map, length_seq, length_map, repeat_length. reflexivity.
Qed.

Lemma nth_corruption_vector noise0 r i :
  (i <= r)%nat ->
  nth i (corruption_vector noise0 r) 0
  = if (i =? r)%nat then 1 else 1 * (1 - noise0).
Proof.
  intros Hi. unfold corruption_vector, vec_set.
  rewrite length_map, repeat_length.
  rewrite (nth_indep _ 0 ((fun k => if (k =? r + 1 - 1)%nat then 1
     else nth k (map (fun x => x * (1 - noise0)) (repeat 1 (r + 1))) 0) 0%nat))
    by (rewrite length_map, length_seq; lia).
  rewrite (map_nth (fun k => if (k =? r + 1 - 1)%nat then 1
     else nth k (map (fun x => x * (1 - noise0)) (repeat 1 (r + 1))) 0)).
  rewrite seq_nth by lia. simpl.
  replace (r + 1 - 1)%nat with r by lia.
  destruct (i =? r)%nat; [reflexivity|].
  rewrite nth_map_scale. rewrite nth_repeat_lt by lia. reflexivity.
Qed.

(** What [_computeWeights] stores in [Q], entry by entry. *)
Lemma compute_Q_entry noise0 (S : matrix) (i j : nat) :
  nrows S = ncols S -> (i < nrows S)%nat -> (j < nrows S)%nat ->
  get (compute_Q noise0 S) i j =
    if (i =? j)%nat
    then (if (i =? nrows S - 1)%nat then 1 else 1 * (1 - noise0)) * get S i i
    else if ((i =? nrows S - 1) || (j =? nrows S - 1))%nat
         then get S i j * (1 / (1 - noise0))
         else get S i j * (1 - noise0) ^ 2.
Proof.
  intros Hsq Hi Hj. unfold compute_Q, set_diag, set_entry, set_col, set_row, scale.
  mshape. rewrite <- Hsq. rewrite !get_mk by lia.
  rewrite length_map, length_combine, length_corruption_vector.
  unfold diag_of at 1. rewrite length_map, length_seq, Nat.min_id.
  destruct (i =? j)%nat eqn:Eij.
  - apply Nat.eqb_eq in Eij. subst j.
    assert (Hlt : (i <? nrows S - 1 + 1)%nat = true) by (apply Nat.ltb_lt; lia).
    rewrite Hlt. simpl.
    rewrite (nth_indep _ 0 ((fun p : R * R => fst p * snd p) (0, 0)))
      by (rewrite length_map, length_combine, length_corruption_vector;
          unfold diag_of; rewrite length_map, length_seq; lia).
    rewrite (map_nth (fun p : R * R => fst p * snd p)).
    rewrite combine_nth
      by (rewrite length_corruption_vector; unfold diag_of;
          rewrite length_map, length_seq; reflexivity).
    simpl. rewrite nth_corruption_vector by lia.
    unfold diag_of.
    rewrite (nth_indep _ 0 ((fun k => get S k k) 0%nat))
      by (rewrite length_map, length_seq; lia).
    rewrite (map_nth (fun k => get S k k)). rewrite seq_nth by lia.
    reflexivity.
  - simpl. apply Nat.eqb_neq in Eij.
    destruct (j =? nrows S - 1)%nat eqn:Ej.
    + apply Nat.eqb_eq in Ej.
      assert (Ei : (i =? nrows S - 1)%nat = false) by (apply Nat.eqb_neq; lia).
      rewrite Ei. simpl. rewrite nth_map_scale, nth_col_of. subst j. reflexivity.
    + rewrite andb_false_r. rewrite orb_false_r.
      destruct (i =? nrows S - 1)%nat eqn:Ei.
      * apply Nat.eqb_eq in Ei. rewrite nth_map_scale. unfold row_of, get.
        rewrite Ei. reflexivity.
      * reflexivity.
Qed.

Lemma get_mk_gen n m f i j :
  get (mk n m f) i j = if ((i <? n) && (j <? m))%nat then f i j else 0.
Proof.
  destruct (i <? n)%nat eqn:Ei; simpl.
  - apply Nat.ltb_lt in Ei. destruct (j <? m)%nat eqn:Ej.
    + apply Nat.ltb_lt in Ej. apply get_mk; assumption.
    + apply Nat.ltb_ge in Ej. unfold get, mk.
      rewrite (nth_indep _ [] (map (fun j0 => f 0%nat j0) (seq 0 m)))
        by (rewrite length_map, length_seq; exact Ei).
      rewrite (map_nth (fun i0 => map (fun j0 => f i0 j0) (seq 0 m)) (seq 0 n) 0%nat i).
      apply nth_overflow. rewrite length_map, length_seq. exact Ej.
  - apply Nat.ltb_ge in Ei. apply get_row_out. rewrite nrows_mk. exact Ei.
Qed.


Lemma get_compute_reg lambda0 r i j :
  get (compute_reg lambda0 r) i j =
    if ((i =? j) && (i <? r))%nat then lambda0 else 0.
Proof.
  unfold compute_reg, set_entry, scale, eye. mshape.
  rewrite !get_mk_gen.
  destruct (i <? r + 1)%nat eqn:Ei; simpl.
  2:{ apply Nat.ltb_ge in Ei.
      destruct ((i =? j) && (i <? r))%nat eqn:E; [|reflexivity].
      apply andb_true_iff in E. destruct E as [_ E]. apply Nat.ltb_lt in E. lia. }
  apply Nat.ltb_lt in Ei.
  destruct (j <? r + 1)%nat eqn:Ej; simpl.
  2:{ apply Nat.ltb_ge in Ej.
      destruct ((i =? j) && (i <? r))%nat eqn:E; [|reflexivity].
      apply andb_true_iff in E. destruct E as [E _]. apply Nat.eqb_eq in E. lia. }
  apply Nat.ltb_lt in Ej.
  replace (r + 1 - 1)%nat with r by lia.
  destruct (Nat.eqb_spec i r) as [Hir|Hir];
    destruct (Nat.eqb_spec j r) as [Hjr|Hjr];
    destruct (Nat.eqb_spec i j) as [Hij|Hij];
    destruct (Nat.ltb_spec i r) as [Hlt|Hlt]; simpl; try lra; lia.
Qed.

(** ** The accumulation loops *)

Lemma update_app_last {A : Type} (l : list A) (x y : A) :
  update (l ++ [x]) (length l) y = l ++ [y].
Proof. induction l as [|h l IH]; simpl; [reflexivity|]. rewrite IH. reflexivity. Qed.

Lemma update_middle {A : Type} (l1 l2 : list A) (x y : A) :
  update (l1 ++ x :: l2) (length l1) y = l1 ++ y :: l2.
Proof. induction l1 as [|h l IH]; simpl; [reflexivity|]. rewrite IH. reflexivity. Qed.

Lemma skipn_nth_cons {A : Type} (d : A) (l : list A) (m : nat) :
  (m < length l)%nat -> skipn m l = nth m l d :: skipn (S m) l.
Proof.
  revert l. induction m as [|m IH]; intros [|x l] H; simpl in *; try lia.
  - reflexivity.
  - apply IH. lia.
Qed.

Lemma fold_body_fresh L job target st k :
  (length st <= k)%nat ->
  fold_body L job target st k
  = (st ++ [fresh_pair L target k],
     updated_pair L job target k (fresh_pair L target k)).
Proof.
  intros H. unfold fold_body.
  assert (E : (length st <=? k)%nat = true) by (apply Nat.leb_le; exact H).
  rewrite E. rewrite nth_middle. reflexivity.
Qed.

Lemma fold_body_old L job target st k :
  (k < length st)%nat ->
  fold_body L job target st k
  = (st, updated_pair L job target k (nth k st ([], None))).
Proof.
  intros H. unfold fold_body.
  assert (E : (length st <=? k)%nat = false) by (apply Nat.leb_gt; exact H).
  rewrite E. destruct (nth k st ([], None)) as [scatter P]. reflexivity.
Qed.

Lemma process_fold_fresh L job target st k :
  (length st <= k)%nat ->
  process_fold L job target st k = st ++ [fresh_pair L target k].
Proof.
  intros H. unfold process_fold. rewrite fold_body_fresh by exact H. reflexivity.
Qed.

Lemma process_fold_old L job target st k :
  (k < length st)%nat -> process_fold L job target st k = st.
Proof.
  intros H. unfold process_fold. rewrite fold_body_old by exact H. reflexivity.
Qed.

Lemma inner_loop_fresh L job target m :
  fold_left (process_fold L job target) (seq 0 m) []
  = map (fresh_pair L target) (seq 0 m).
Proof.
  induction m as [|m IH]; [reflexivity|].
  rewrite seq_S, fold_left_app, IH, map_app. simpl.
  apply process_fold_fresh. rewrite length_map, length_seq. lia.
Qed.

Lemma inner_loop_old L job target st m :
  forall a, (a + m <= length st)%nat ->
  fold_left (process_fold L job target) (seq a m) st = st.
Proof.
  induction m as [|m IH]; intros a Hm; [reflexivity|].
  cbn [seq fold_left]. rewrite process_fold_old by lia. apply IH. lia.
Qed.

(** ** One chunk's contribution to a fold *)

Lemma nth_mk_row n m f i :
  (i < n)%nat -> nth i (mk n m f) [] = map (fun j => f i j) (seq 0 m).
Proof.
  intros Hi. unfold mk.
  rewrite (nth_indep _ [] ((fun i0 => map (fun j => f i0 j) (seq 0 m)) 0%nat))
    by (rewrite length_map, length_seq; exact Hi).
  rewrite (map_nth (fun i0 => map (fun j => f i0 j) (seq 0 m))).
  rewrite seq_nth by exact Hi. reflexivity.
Qed.

Lemma nth_rows_at (A : matrix) (idxs : list nat) (i : nat) :
  (i < length idxs)%nat -> nth i (rows_at A idxs) [] = nth (nth i idxs 0%nat) A [].
Proof.
  intros Hi. unfold rows_at.
  rewrite (nth_indep _ [] ((fun i0 => nth i0 A []) 0%nat))
    by (rewrite length_map; exact Hi).
  apply (map_nth (fun i0 => nth i0 A [])).
Qed.

Lemma ncols_rows_at_csc chunk n (idxs : list nat) :
  idxs <> [] -> Forall (fun i => (i < n)%nat) idxs ->
  ncols (rows_at (corpus2csc chunk n) idxs) = length chunk.
Proof.
  intros Hne Hall. destruct idxs as [|b idxs]; [congruence|].
  inversion Hall; subst. unfold ncols, rows_at, corpus2csc. simpl.
  rewrite nth_mk_row by assumption. rewrite length_map, length_seq. reflexivity.
Qed.

Lemma get_rows_at_csc chunk n (idxs : list nat) (i k : nat) :
  Forall (fun i => (i < n)%nat) idxs ->
  (i < length idxs)%nat -> (k < length chunk)%nat ->
  get (rows_at (corpus2csc chunk n) idxs) i k
  = nth i (target_of idxs (nth k chunk [])) 0.
Proof.
  intros Hall Hi Hk. unfold get. rewrite nth_rows_at by exact Hi.
  assert (Hb : (nth i idxs 0%nat < n)%nat).
  { rewrite Forall_forall in Hall. apply Hall. apply nth_In. exact Hi. }
  change (get (corpus2csc chunk n) (nth i idxs 0%nat) k
          = nth i (target_of idxs (nth k chunk [])) 0).
  unfold corpus2csc. rewrite get_mk by assumption.
  unfold target_of.
  rewrite (nth_indep (map (fun i0 => nth i0 (nth k chunk []) 0) idxs) 0
                     ((fun i0 => nth i0 (nth k chunk []) 0) 0%nat))
    by (rewrite length_map; exact Hi).
  rewrite (map_nth (fun i0 => nth i0 (nth k chunk []) 0)). reflexivity.
Qed.

Lemma nth_augmented (block : list nat) (d : doc) (i : nat) :
  nth i (augmented block d) 0
  = if (i <? length block)%nat then nth i (target_of block d) 0
    else if (i =? length block)%nat then 1 else 0.
Proof.
  unfold augmented, target_of.
  destruct (Nat.ltb_spec i (length block)) as [Hi|Hi].
  - rewrite app_nth1 by (rewrite length_map; exact Hi). reflexivity.
  - rewrite app_nth2 by (rewrite length_map; exact Hi). rewrite length_map.
    destruct (Nat.eqb_spec i (length block)) as [E|E].
    + subst i. rewrite Nat.sub_diag. reflexivity.
    + destruct (i - length block)%nat as [|[|p]] eqn:Ed; try reflexivity. lia.
Qed.

Lemma length_augmented block d : length (augmented block d) = (length block + 1)%nat.
Proof. unfold augmented. rewrite length_app, length_map. reflexivity. Qed.

Lemma length_target_of ids d : length (target_of ids d) = length ids.
Proof. unfold target_of. apply length_map. Qed.

Section Chunk.

Variables (n : nat) (block : list nat) (chunk : list doc).
Hypothesis block_nonempty : block <> [].
Hypothesis block_valid : Forall (fun i => (i < n)%nat) block.

Let job := corpus2csc chunk n.
Let X := vstack (rows_at job block) (ones 1 (ncols (rows_at job block))).

Lemma nrows_input_chunk : nrows X = (length block + 1)%nat.
Proof.
  unfold X, vstack, nrows, rows_at, ones.
  rewrite length_app, length_map. fold (nrows (mk 1 (ncols (map (fun i => nth i job []) block)) (fun _ _ => 1))).
  rewrite nrows_mk. reflexivity.
Qed.

Lemma ncols_input_chunk : ncols X = length chunk.
Proof.
  unfold X, vstack, ncols. destruct block as [|b bl] eqn:Eb; [congruence|].
  simpl. unfold job, corpus2csc. inversion block_valid; subst.
  rewrite nth_mk_row by assumption. rewrite length_map, length_seq. reflexivity.
Qed.

Lemma get_input_chunk i k :
  (i <= length block)%nat -> (k < length chunk)%nat ->
  get X i k = nth i (augmented block (nth k chunk [])) 0.
Proof.
  intros Hi Hk. rewrite nth_augmented.
  destruct (Nat.ltb_spec i (length block)) as [Hlt|Hge].
  - rewrite <- (get_rows_at_csc chunk n block i k) by assumption.
    unfold X, vstack, get. fold job.
    rewrite app_nth1 by (unfold rows_at; rewrite length_map; exact Hlt).
    reflexivity.
  - assert (i = length block) by lia. subst i. rewrite Nat.eqb_refl.
    assert (Hc : ncols (rows_at job block) = length chunk)
      by (apply ncols_rows_at_csc; assumption).
    assert (Hl : length (rows_at job block) = length block)
      by (unfold rows_at; apply length_map).
    unfold X, vstack, get. rewrite Hc.
    rewrite app_nth2 by lia. rewrite Hl, Nat.sub_diag.
    change (get (ones 1 (length chunk)) 0 k = 1).
    unfold ones. apply get_mk; lia.
Qed.

(** [input_chunk.dot(input_chunk.T)] is the sum over the chunk's documents
    of the outer products of their augmented vectors. *)
Lemma gram_input_chunk :
  chunk <> [] ->
  mmul X (transpose X)
  = mk (length block + 1) (length block + 1)
       (fun i j => Rsum (map (fun d => nth i (augmented block d) 0
                                       * nth j (augmented block d) 0) chunk)).
Proof.
  intros Hne.
  assert (Hm : (0 < length chunk)%nat) by (destruct chunk; [congruence|simpl; lia]).
  unfold mmul, transpose. rewrite nrows_input_chunk, ncols_input_chunk.
  rewrite ncols_mk by exact Hm.
  apply mk_ext. intros i j Hi Hj. unfold sum_upto. cbv beta.
  rewrite <- (Rsum_seq_nth ([] : doc) (fun d : doc => nth i (augmented block d) 0
                                        * nth j (augmented block d) 0) chunk).
  apply Rsum_map_ext. intros k Hk. apply in_seq in Hk.
  rewrite get_mk by lia. rewrite !get_input_chunk by lia. reflexivity.
Qed.

(** [target_representation_chunk.dot(input_chunk.T)] likewise. *)
Lemma cross_input_chunk (ids : list nat) :
  chunk <> [] -> Forall (fun i => (i < n)%nat) ids ->
  mmul (rows_at job ids) (transpose X)
  = mk (length ids) (length block + 1)
       (fun i j => Rsum (map (fun d => nth i (target_of ids d) 0
                                       * nth j (augmented block d) 0) chunk)).
Proof.
  intros Hne Hids.
  assert (Hm : (0 < length chunk)%nat) by (destruct chunk; [congruence|simpl; lia]).
  unfold mmul, transpose. rewrite nrows_input_chunk, ncols_input_chunk.
  rewrite ncols_mk by exact Hm.
  assert (Hr : nrows (rows_at job ids) = length ids)
    by (unfold nrows, rows_at; apply length_map).
  rewrite Hr. apply mk_ext. intros i j Hi Hj.
  assert (Hids_ne : ids <> []) by (destruct ids; [simpl in Hi; lia|congruence]).
  unfold job. rewrite ncols_rows_at_csc by assumption.
  unfold sum_upto. cbv beta.
  rewrite <- (Rsum_seq_nth ([] : doc) (fun d : doc => nth i (target_of ids d) 0
                                        * nth j (augmented block d) 0) chunk).
  apply Rsum_map_ext. intros k Hk. apply in_seq in Hk.
  rewrite get_mk by lia. rewrite get_rows_at_csc by (assumption || lia).
  fold job. fold X. rewrite get_input_chunk by lia. reflexivity.
Qed.

End Chunk.

(** ** Sums of outer products *)

Lemma madd_zero_r (S : matrix) p q :
  rect S -> madd S (mk p q (fun _ _ => 0)) = S.
Proof.
  intros HS. rewrite <- (rect_get S HS) at 2. unfold madd.
  apply mk_ext. intros i j _ _. rewrite get_mk_gen.
  destruct ((i <? p) && (j <? q))%nat; lra.
Qed.

Lemma madd_madd_mk (S : matrix) p q f g :
  madd (madd S (mk p q f)) (mk p q g)
  = madd S (mk p q (fun i j => f i j + g i j)).
Proof.
  destruct (Nat.eq_dec (nrows S) 0) as [Hz|Hz].
  { apply length_zero_iff_nil in Hz. subst S. reflexivity. }
  unfold madd. mshape. apply mk_ext. intros i j Hi Hj.
  rewrite get_mk by lia. rewrite !get_mk_gen.
  destruct ((i <? p) && (j <? q))%nat; lra.
Qed.

Lemma madd_fold (g : doc -> matrix) p q (f : doc -> nat -> nat -> R) :
  (forall d, g d = mk p q (f d)) ->
  forall docs S, rect S ->
  fold_left (fun S0 d => madd S0 (g d)) docs S
  = madd S (mk p q (fun i j => Rsum (map (fun d => f d i j) docs))).
Proof.
  intros Hg docs. induction docs as [|d docs IH]; intros S HS.
  - simpl. symmetry. apply madd_zero_r. exact HS.
  - simpl. rewrite IH by apply rect_mk. rewrite Hg. apply madd_madd_mk.
Qed.

Lemma outer_augmented block d :
  outer (augmented block d) (augmented block d)
  = mk (length block + 1) (length block + 1)
       (fun i j => nth i (augmented block d) 0 * nth j (augmented block d) 0).
Proof. unfold outer. rewrite length_augmented. reflexivity. Qed.

Lemma outer_target ids block d :
  outer (target_of ids d) (augmented block d)
  = mk (length ids) (length block + 1)
       (fun i j => nth i (target_of ids d) 0 * nth j (augmented block d) 0).
Proof. unfold outer. rewrite length_augmented, length_target_of. reflexivity. Qed.

Lemma scatter_sum_eq block docs :
  scatter_sum block docs
  = mk (length block + 1) (length block + 1)
       (fun i j => Rsum (map (fun d => nth i (augmented block d) 0
                                       * nth j (augmented block d) 0) docs)).
Proof.
  unfold scatter_sum.
  rewrite (madd_fold _ _ _ _ (outer_augmented block)) by apply rect_mk.
  unfold madd, zeros. mshape. apply mk_ext. intros i j Hi Hj.
  rewrite !get_mk by lia. lra.
Qed.

Lemma cross_sum_eq out ids block docs :
  cross_sum out ids block docs
  = mk out (length block + 1)
       (fun i j => if (i <? length ids)%nat
                   then Rsum (map (fun d => nth i (target_of ids d) 0
                                            * nth j (augmented block d) 0) docs)
                   else 0).
Proof.
  unfold cross_sum.
  rewrite (madd_fold _ _ _ _ (outer_target ids block)) by apply rect_mk.
  destruct out as [|out]; [reflexivity|].
  unfold madd, zeros. mshape. apply mk_ext. intros i j Hi Hj.
  rewrite get_mk by lia. rewrite get_mk_gen.
  assert (E : (j <? length block + 1)%nat = true) by (apply Nat.ltb_lt; exact Hj).
  rewrite E, andb_true_r. destruct (i <? length ids)%nat; lra.
Qed.

Lemma scatter_sum_step n block chunk ds :
  block <> [] -> Forall (fun i => (i < n)%nat) block -> chunk <> [] ->
  let X := vstack (rows_at (corpus2csc chunk n) block)
                  (ones 1 (ncols (rows_at (corpus2csc chunk n) block))) in
  madd (scatter_sum block ds) (mmul X (transpose X))
  = scatter_sum block (ds ++ chunk).
Proof.
  intros Hb Hv Hc X. unfold X.
  rewrite (gram_input_chunk n block chunk Hb Hv Hc).
  unfold scatter_sum at 2. rewrite fold_left_app.
  fold (scatter_sum block ds).
  rewrite (madd_fold _ _ _ _ (outer_augmented block))
    by (rewrite scatter_sum_eq; apply rect_mk).
  reflexivity.
Qed.

Lemma cross_sum_step n out ids block chunk ds :
  block <> [] -> Forall (fun i => (i < n)%nat) block -> chunk <> [] ->
  Forall (fun i => (i < n)%nat) ids ->
  let X := vstack (rows_at (corpus2csc chunk n) block)
                  (ones 1 (ncols (rows_at (corpus2csc chunk n) block))) in
  madd (cross_sum out ids block ds)
       (mmul (rows_at (corpus2csc chunk n) ids) (transpose X))
  = cross_sum out ids block (ds ++ chunk).
Proof.
  intros Hb Hv Hc Hids X. unfold X.
  rewrite (cross_input_chunk n block chunk Hb Hv ids Hc Hids).
  unfold cross_sum at 2. rewrite fold_left_app.
  fold (cross_sum out ids block ds).
  rewrite (madd_fold _ _ _ _ (outer_target ids block))
    by (rewrite cross_sum_eq; apply rect_mk).
  reflexivity.
Qed.

(** ** A full pass over the corpus *)

Lemma well_formed_length L :
  well_formed L -> length (randomized_indices L) = input_dimensionality L.
Proof.
  intros (_ & _ & _ & HP & _). rewrite (Permutation_length HP). apply length_seq.
Qed.

Lemma fold_valid L k :
  well_formed L -> (k < num_folds L)%nat ->
  fold_indices L k <> [] /\
  Forall (fun i => (i < input_dimensionality L)%nat) (fold_indices L k).
Proof.
  intros HC Hk. pose proof (well_formed_length L HC) as Hlen.
  destruct HC as (_ & Hout & Hnf & HP & _).
  destruct (ceil_div_spec (input_dimensionality L) (output_dimensionality L) Hout)
    as [_ Hmin].
  rewrite <- Hnf in Hmin.
  assert (Hlt : (k * output_dimensionality L < input_dimensionality L)%nat).
  { destruct (Nat.lt_ge_cases (k * output_dimensionality L) (input_dimensionality L))
      as [H|H]; [exact H|]. specialize (Hmin k H). lia. }
  split.
  - intros E. apply (f_equal (@length nat)) in E.
    unfold fold_indices in E. rewrite length_py_slice, Hlen in E. simpl in E. nia.
  - apply Forall_forall. intros x Hx.
    apply (In_py_slice 0%nat) in Hx. destruct Hx as [p [_ [Hp Hx]]].
    assert (Hin : In x (randomized_indices L)) by (rewrite <- Hx; apply nth_In; exact Hp).
    apply (Permutation_in _ HP) in Hin. apply in_seq in Hin. lia.
Qed.

Lemma well_formed_folds L : well_formed L -> (1 <= num_folds L)%nat.
Proof.
  intros (Hin & Hout & Hnf & _).
  destruct (ceil_div_spec (input_dimensionality L) (output_dimensionality L) Hout)
    as [Hle _].
  rewrite <- Hnf in Hle. destruct (num_folds L); [simpl in Hle; lia|lia].
Qed.

Lemma nth_map_seq {A : Type} (F : nat -> A) (N k : nat) (d : A) :
  (k < N)%nat -> nth k (map F (seq 0 N)) d = F k.
Proof.
  intros Hk. rewrite (nth_indep _ d (F 0%nat)) by (rewrite length_map, length_seq; exact Hk).
  rewrite (map_nth F). rewrite seq_nth by exact Hk. reflexivity.
Qed.

Lemma updated_exact L chunk ds k :
  well_formed L -> chunk <> [] -> (k < num_folds L)%nat ->
  updated_pair L (fst (dual_item (input_dimensionality L) (prototype_ids L) chunk))
               (snd (dual_item (input_dimensionality L) (prototype_ids L) chunk))
               k (exact_pair L ds k)
  = exact_pair L (ds ++ chunk) k.
Proof.
  intros HC Hc Hk. destruct (fold_valid L k HC Hk) as [Hb Hv].
  unfold updated_pair, exact_pair, input_chunk_of, dual_item. simpl fst. simpl snd.
  rewrite (scatter_sum_step _ _ _ ds Hb Hv Hc).
  destruct HC as (_ & _ & _ & _ & Hids).
  destruct (prototype_ids L) as [ids|]; [|reflexivity].
  destruct Hids as [Hids _].
  rewrite (cross_sum_step _ (output_dimensionality L) ids _ _ ds Hb Hv Hc Hids).
  reflexivity.
Qed.

Lemma fresh_exact L target k :
  (match target with Some _ => True | None => False end
   <-> match prototype_ids L with Some _ => True | None => False end) ->
  fresh_pair L target k = exact_pair L [] k.
Proof.
  intros H. unfold fresh_pair, exact_pair, scatter_sum, cross_sum. simpl.
  destruct target, (prototype_ids L); try reflexivity; exfalso; tauto.
Qed.

Lemma process_chunk_first L chunk :
  process_chunk L [] chunk = zero_accumulators L.
Proof.
  unfold process_chunk, dual_item, zero_accumulators.
  rewrite inner_loop_fresh. apply map_ext. intros k.
  unfold fresh_pair. destruct (prototype_ids L); reflexivity.
Qed.

Lemma process_chunk_later L st chunk :
  (num_folds L <= length st)%nat -> process_chunk L st chunk = st.
Proof.
  intros H. unfold process_chunk.
  destruct (dual_item (input_dimensionality L) (prototype_ids L) chunk)
    as [job target].
  apply inner_loop_old. lia.
Qed.

Lemma length_zero_accumulators L : length (zero_accumulators L) = num_folds L.
Proof. unfold zero_accumulators. rewrite length_map, length_seq. reflexivity. Qed.

(** What the loops leave in [scatters_and_P_matrices]: nothing without a
    chunk, the zero matrices of the first chunk otherwise. *)
Lemma accumulate_zero L chunks :
  accumulate L chunks
  = match chunks with
    | [] => []
    | _ :: _ => zero_accumulators L
    end.
Proof.
  destruct chunks as [|c cs]; [reflexivity|].
  unfold accumulate. cbn [fold_left]. rewrite process_chunk_first.
  induction cs as [|c' cs IH]; [reflexivity|].
  cbn [fold_left]. rewrite process_chunk_later by (rewrite length_zero_accumulators; lia).
  exact IH.
Qed.

(** [grouper] with a positive chunk size splits the whole corpus into
    non-empty consecutive chunks and exhausts the iterator. *)
Lemma grouper_loop_spec chunksize :
  (0 < chunksize)%nat ->
  forall fuel it, (length it < fuel)%nat ->
  exists chunks,
    grouper_loop fuel chunksize it = (chunks, []) /\
    concat chunks = it /\
    Forall (fun c => c <> []) chunks /\
    Forall (fun c => (length c <= chunksize)%nat) chunks.
Proof.
  intros Hc fuel. induction fuel as [|fuel IH]; intros it Hlen; [lia|].
  simpl. destruct (firstn chunksize it) as [|x chunk] eqn:Ef.
  - assert (it = []).
    { destruct it; [reflexivity|]. destruct chunksize; [lia|discriminate]. }
    subst it. exists []. rewrite skipn_nil. repeat split; constructor.
  - assert (Hsk : (length (skipn chunksize it) < fuel)%nat).
    { rewrite length_skipn. destruct it; [rewrite firstn_nil in Ef; discriminate|].
      cbn [length] in *. lia. }
    destruct (IH _ Hsk) as [chunks [Hg [Hcat [Hne Hle]]]].
    rewrite Hg. exists ((x :: chunk) :: chunks). repeat split.
    + cbn [concat]. rewrite Hcat, <- Ef. apply firstn_skipn.
    + constructor; [discriminate|exact Hne].
    + constructor; [|exact Hle]. rewrite <- Ef. rewrite length_firstn. lia.
Qed.

Lemma grouper_spec corpus chunksize :
  (0 < chunksize)%nat ->
  exists chunks,
    grouper corpus chunksize = (chunks, []) /\
    concat chunks = corpus /\
    Forall (fun c => c <> []) chunks.
Proof.
  intros Hc.
  destruct (grouper_loop_spec chunksize Hc (S (length corpus)) corpus ltac:(lia))
    as [chunks [H1 [H2 [H3 _]]]].
  exists chunks. auto.
Qed.

Lemma grouper_zero corpus : grouper corpus 0 = ([], corpus).
Proof. reflexivity. Qed.

Lemma accumulate_grouper L corpus chunksize :
  (0 < chunksize)%nat ->
  accumulate L (fst (grouper corpus chunksize))
  = match corpus with
    | [] => []
    | _ :: _ => zero_accumulators L
    end.
Proof.
  intros Hc. destruct (grouper_spec corpus chunksize Hc) as [chunks [Hg [Hcat Hne]]].
  rewrite Hg. cbn [fst]. rewrite accumulate_zero.
  destruct corpus as [|d corpus]; destruct chunks as [|c cs]; try reflexivity.
  - inversion Hne; subst. destruct c; [congruence|discriminate].
  - simpl in Hcat. discriminate.
Qed.

(** ** Symmetry and positive semi-definiteness of the scatter matrices *)

Lemma sum_upto_ext n f g :
  (forall i, (i < n)%nat -> f i = g i) -> sum_upto n f = sum_upto n g.
Proof.
  intros H. unfold sum_upto. apply Rsum_map_ext.
  intros i Hi. apply in_seq in Hi. apply H. lia.
Qed.

Lemma sum_upto_plus n f g :
  sum_upto n (fun i => f i + g i) = sum_upto n f + sum_upto n g.
Proof. unfold sum_upto. apply Rsum_map_plus. Qed.

Lemma sum_upto_swap n m (f : nat -> nat -> R) :
  sum_upto n (fun i => sum_upto m (fun j => f i j))
  = sum_upto m (fun j => sum_upto n (fun i => f i j)).
Proof. unfold sum_upto. apply Rsum_swap. Qed.

Lemma sum_upto_scal_l n c f : sum_upto n (fun i => c * f i) = c * sum_upto n f.
Proof. unfold sum_upto. apply Rsum_map_scal. Qed.

Lemma sum_upto_scal_r n c f : sum_upto n (fun i => f i * c) = sum_upto n f * c.
Proof. unfold sum_upto. apply Rsum_map_scal_r. Qed.

Lemma sum_upto_nonneg n f : (forall i, 0 <= f i) -> 0 <= sum_upto n f.
Proof. intros H. unfold sum_upto. apply Rsum_map_nonneg. intros; apply H. Qed.

(** Every entry of [X.dot(X.T)], inside or outside its shape. *)
Lemma get_gram (X : matrix) i j :
  get (mmul X (transpose X)) i j
  = sum_upto (ncols X) (fun k => get X i k * get X j k).
Proof.
  unfold mmul, transpose.
  destruct (Nat.eq_dec (ncols X) 0) as [Hz|Hz].
  - rewrite Hz. rewrite get_mk_gen.
    destruct ((i <? nrows X) && (j <? ncols (mk 0 (nrows X) (fun i0 j0 => get X j0 i0))))%nat;
      reflexivity.
  - rewrite ncols_mk by lia. rewrite get_mk_gen.
    destruct (Nat.ltb_spec i (nrows X)) as [Hi|Hi];
      destruct (Nat.ltb_spec j (nrows X)) as [Hj|Hj]; simpl.
    + apply sum_upto_ext. intros k Hk. rewrite get_mk by lia. reflexivity.
    + symmetry. rewrite <- (Rmult_0_r (sum_upto (ncols X) (fun k => get X i k))).
      rewrite <- sum_upto_scal_r. apply sum_upto_ext. intros k _.
      rewrite (get_row_out X j k) by exact Hj. reflexivity.
    + symmetry. rewrite <- (Rmult_0_l (sum_upto (ncols X) (fun k => get X j k))).
      rewrite <- sum_upto_scal_l. apply sum_upto_ext. intros k _.
      rewrite (get_row_out X i k) by exact Hi. reflexivity.
    + symmetry. rewrite <- (Rmult_0_l (sum_upto (ncols X) (fun k => get X j k))).
      rewrite <- sum_upto_scal_l. apply sum_upto_ext. intros k _.
      rewrite (get_row_out X i k) by exact Hi. reflexivity.
Qed.

(** The quadratic form of [X.dot(X.T)] is a sum of squares. *)
Lemma quad_gram_entries n (X : matrix) (v : list R) :
  sum_upto n (fun i => sum_upto n (fun j =>
     nth i v 0 * get (mmul X (transpose X)) i j * nth j v 0))
  = sum_upto (ncols X) (fun k =>
      sum_upto n (fun i => nth i v 0 * get X i k)
      * sum_upto n (fun j => nth j v 0 * get X j k)).
Proof.
  transitivity
    (sum_upto n (fun i => sum_upto n (fun j => sum_upto (ncols X) (fun k =>
       (nth i v 0 * get X i k) * (nth j v 0 * get X j k))))).
  - apply sum_upto_ext. intros i _. apply sum_upto_ext. intros j _.
    rewrite get_gram.
    rewrite <- sum_upto_scal_l, <- sum_upto_scal_r.
    apply sum_upto_ext. intros k _. ring.
  - transitivity
      (sum_upto n (fun i => sum_upto (ncols X) (fun k => sum_upto n (fun j =>
         (nth i v 0 * get X i k) * (nth j v 0 * get X j k))))).
    { apply sum_upto_ext. intros i _. apply sum_upto_swap. }
    rewrite sum_upto_swap. apply sum_upto_ext. intros k _.
    rewrite <- sum_upto_scal_r. apply sum_upto_ext. intros i _.
    rewrite <- sum_upto_scal_l. reflexivity.
Qed.

Lemma good_zeros s : (0 < s)%nat -> good (zeros s s).
Proof.
  intros Hs. unfold good, zeros. split; [apply rect_mk|].
  rewrite nrows_mk, ncols_mk by lia.
  split; [exact Hs|]. split; [reflexivity|]. split.
  - intros i j. rewrite !get_mk_gen.
    destruct ((i <? s) && (j <? s))%nat, ((j <? s) && (i <? s))%nat; reflexivity.
  - intros v. unfold quad. apply sum_upto_nonneg. intros i.
    apply sum_upto_nonneg. intros j. rewrite get_mk_gen.
    destruct ((i <? s) && (j <? s))%nat; lra.
Qed.

Lemma good_scatter_update (S X : matrix) :
  good S -> good (madd S (mmul X (transpose X))).
Proof.
  intros (HR & Hpos & Hsq & Hsym & Hpsd).
  assert (Hnr : nrows (madd S (mmul X (transpose X))) = nrows S)
    by (unfold madd; apply nrows_mk).
  assert (Hnc : ncols (madd S (mmul X (transpose X))) = ncols S)
    by (unfold madd; apply ncols_mk; lia).
  unfold good. rewrite Hnr, Hnc.
  split; [unfold madd; apply rect_mk|].
  split; [exact Hpos|]. split; [exact Hsq|].
  split.
  - intros i j. unfold madd. rewrite !get_mk_gen. rewrite <- Hsq.
    rewrite (andb_comm (j <? nrows S)%nat).
    destruct ((i <? nrows S) && (j <? nrows S))%nat; [|reflexivity].
    rewrite (Hsym i j). rewrite !get_gram. f_equal.
    apply sum_upto_ext. intros k _. ring.
  - intros v. unfold quad. rewrite Hnr, Hnc.
    specialize (Hpsd v). unfold quad in Hpsd. rewrite <- Hsq in *.
    assert (E : sum_upto (nrows S) (fun i => sum_upto (nrows S) (fun j =>
                  nth i v 0 * get (madd S (mmul X (transpose X))) i j * nth j v 0))
              = sum_upto (nrows S) (fun i => sum_upto (nrows S) (fun j =>
                  nth i v 0 * get S i j * nth j v 0))
                + sum_upto (nrows S) (fun i => sum_upto (nrows S) (fun j =>
                  nth i v 0 * get (mmul X (transpose X)) i j * nth j v 0))).
    { rewrite <- sum_upto_plus. apply sum_upto_ext. intros i Hi.
      rewrite <- sum_upto_plus. apply sum_upto_ext. intros j Hj.
      unfold madd. rewrite get_mk by lia. ring. }
    rewrite E. rewrite quad_gram_entries.
    assert (0 <= sum_upto (ncols X) (fun k =>
              sum_upto (nrows S) (fun i => nth i v 0 * get X i k)
              * sum_upto (nrows S) (fun j => nth j v 0 * get X j k))).
    { apply sum_upto_nonneg. intros k. apply Rle_0_sqr. }
    lra.
Qed.

Lemma good_symmetric S : good S -> symmetric S /\ psd S.
Proof.
  intros (HR & _ & Hsq & Hsym & Hpsd). split; [|exact Hpsd].
  unfold symmetric, transpose. rewrite <- (rect_get S HR) at 3.
  rewrite <- Hsq. apply mk_ext. intros i j _ _. apply Hsym.
Qed.

Lemma good_pair_updated L job target k old :
  good_pair old -> good_pair (updated_pair L job target k old).
Proof.
  intros [Hg HP]. unfold good_pair, updated_pair. cbn [fst snd]. split.
  - apply good_scatter_update. exact Hg.
  - destruct target; destruct (snd old); try exact HP; try exact I.
    unfold madd. apply rect_mk.
Qed.

Lemma good_pair_fresh L target k : good_pair (fresh_pair L target k).
Proof.
  unfold good_pair, fresh_pair. cbn [fst snd]. split.
  - apply good_zeros. lia.
  - destruct target; [apply rect_mk|exact I].
Qed.

Lemma Forall_update {A : Type} (P : A -> Prop) (l : list A) (i : nat) (x : A) :
  Forall P l -> P x -> Forall P (update l i x).
Proof.
  intros Hl Hx. revert i. induction Hl as [|h t Hh Ht IH]; intros i; simpl.
  - constructor.
  - destruct i; constructor; auto.
Qed.

Lemma all_good_process_fold L job target st k :
  all_good st -> all_good (process_fold L job target st k).
Proof.
  intros Hst. destruct (Nat.le_gt_cases (length st) k) as [Hk|Hk].
  - rewrite process_fold_fresh by exact Hk. apply Forall_app. split; [exact Hst|].
    constructor; [|constructor]. apply good_pair_fresh.
  - rewrite process_fold_old by exact Hk. exact Hst.
Qed.

Lemma good_pair_local L job target st k :
  all_good st -> good_pair (snd (fold_body L job target st k)).
Proof.
  intros Hst. destruct (Nat.le_gt_cases (length st) k) as [Hk|Hk].
  - rewrite fold_body_fresh by exact Hk. cbn [snd].
    apply good_pair_updated. apply good_pair_fresh.
  - rewrite fold_body_old by exact Hk. cbn [snd].
    apply good_pair_updated.
    unfold all_good in Hst. rewrite Forall_forall in Hst. apply Hst.
    apply nth_In. exact Hk.
Qed.

Lemma fold_locals_good L job target folds :
  forall st, all_good st -> Forall good_pair (fold_locals L job target st folds).
Proof.
  induction folds as [|k folds IH]; intros st Hst; cbn [fold_locals].
  - constructor.
  - constructor; [apply good_pair_local; exact Hst|].
    apply IH. apply all_good_process_fold. exact Hst.
Qed.

Lemma fold_trace_good L job target folds :
  forall st, all_good st ->
  Forall all_good (fold_trace L job target st folds) /\
  all_good (fold_left (process_fold L job target) folds st).
Proof.
  induction folds as [|k folds IH]; intros st Hst; simpl.
  - split; [constructor|exact Hst].
  - pose proof (all_good_process_fold L job target st k Hst) as H.
    destruct (IH _ H) as [H1 H2]. split; [constructor; assumption|exact H2].
Qed.

Lemma accumulate_trace_good L chunks :
  forall st, all_good st ->
  Forall all_good (accumulate_trace L st chunks) /\
  all_good (fold_left (process_chunk L) chunks st).
Proof.
  induction chunks as [|chunk chunks IH]; intros st Hst.
  - split; [constructor|exact Hst].
  - cbn [accumulate_trace fold_left].
    destruct (dual_item (input_dimensionality L) (prototype_ids L) chunk)
      as [job target] eqn:Ed.
    assert (Hp : process_chunk L st chunk
                 = fold_left (process_fold L job target) (seq 0 (num_folds L)) st)
      by (unfold process_chunk; rewrite Ed; reflexivity).
    rewrite Hp.
    destruct (fold_trace_good L job target (seq 0 (num_folds L)) st Hst) as [H1 H2].
    destruct (IH _ H2) as [H3 H4].
    split; [apply Forall_app; split; assumption|exact H4].
Qed.

Lemma accumulate_locals_good L chunks :
  forall st, all_good st -> Forall good_pair (accumulate_locals L st chunks).
Proof.
  induction chunks as [|chunk chunks IH]; intros st Hst.
  - constructor.
  - cbn [accumulate_locals].
    destruct (dual_item (input_dimensionality L) (prototype_ids L) chunk)
      as [job target] eqn:Ed.
    assert (Hp : process_chunk L st chunk
                 = fold_left (process_fold L job target) (seq 0 (num_folds L)) st)
      by (unfold process_chunk; rewrite Ed; reflexivity).
    apply Forall_app. split.
    + apply fold_locals_good. exact Hst.
    + apply IH. rewrite Hp.
      apply (fold_trace_good L job target (seq 0 (num_folds L)) st Hst).
Qed.

(** C8. During the accumulation of a training pass, after every execution
    of the loop body (every chunk and every fold), each scatter matrix held
    in the accumulator list is symmetric (equal to its transpose) and
    positive semi-definite; so are the scatter matrices left at the end of
    the pass, and so is, after every execution of the loop body, the matrix
    the name [scatter] is bound to after [+=]. *)
Theorem scatter_symmetric_psd (L : mDALayer) (corpus : list doc) (chunksize : nat) :
  let chunks := fst (grouper corpus chunksize) in
  Forall (Forall (fun acc : accumulator => symmetric (fst acc) /\ psd (fst acc)))
         (accumulate_trace L [] chunks) /\
  Forall (fun acc : accumulator => symmetric (fst acc) /\ psd (fst acc))
         (accumulate L chunks) /\
  Forall (fun acc : accumulator => symmetric (fst acc) /\ psd (fst acc))
         (accumulate_locals L [] chunks).
Proof.
  intros chunks.
  destruct (accumulate_trace_good L chunks [] ltac:(constructor)) as [H1 H2].
  pose proof (accumulate_locals_good L chunks [] ltac:(constructor)) as H3.
  split; [|split].
  - eapply Forall_impl; [|exact H1]. intros st Hst.
    eapply Forall_impl; [|exact Hst]. intros acc Hacc. apply good_symmetric.
    exact (proj1 Hacc).
  - eapply Forall_impl; [|exact H2]. intros acc Hacc. apply good_symmetric.
    exact (proj1 Hacc).
  - eapply Forall_impl; [|exact H3]. intros acc Hacc. apply good_symmetric.
    exact (proj1 Hacc).
Qed.

(** ** Chunk-size independence *)

Lemma well_formed_layer1 noise0 lambda0 : well_formed (layer1 noise0 lambda0).
Proof.
  unfold well_formed. cbn [output_dimensionality num_folds input_dimensionality
                           randomized_indices prototype_ids layer1 layer2].
  split; [lia|]. split; [lia|]. split; [vm_compute; reflexivity|].
  split; [apply Permutation_refl|exact I].
Qed.

Lemma well_formed_layer2 noise0 lambda0 : well_formed (layer2 noise0 lambda0).
Proof.
  unfold well_formed. cbn [output_dimensionality num_folds input_dimensionality
                           randomized_indices prototype_ids layer1 layer2].
  split; [lia|]. split; [lia|]. split; [vm_compute; reflexivity|].
  split; [apply Permutation_refl|exact I].
Qed.

(** The value [scatter += ...] binds to the local name on the first chunk
    is that chunk's sum of outer products: the accumulation is computed,
    and lost when the name goes out of use. *)
Lemma first_chunk_local L chunk k :
  well_formed L -> chunk <> [] -> (k < num_folds L)%nat ->
  fst (snd (fold_body L (fst (dual_item (input_dimensionality L) (prototype_ids L) chunk))
                      (snd (dual_item (input_dimensionality L) (prototype_ids L) chunk))
                      (zero_accumulators L) k))
  = scatter_sum (fold_indices L k) chunk.
Proof.
  intros HW Hc Hk.
  rewrite fold_body_old by (rewrite length_zero_accumulators; exact Hk).
  cbn [snd]. unfold zero_accumulators. rewrite nth_map_seq by exact Hk.
  pose proof (updated_exact L chunk [] k HW Hc Hk) as H.
  unfold exact_pair in H. unfold scatter_sum at 1, cross_sum at 1 in H.
  cbn [fold_left app] in H.
  apply (f_equal fst) in H. cbn [fst] in H. exact H.
Qed.

(** C4.  On the one-dimensional layer and the corpus of the single document
    of weight 1, read with chunk size 1, the scatter matrix the pass leaves
    for the only fold is the zero matrix it was created as, while the sum
    over the corpus of the outer products of the augmented vectors, which
    the claim states, is [[1, 1], [1, 1]]. *)
Theorem accumulation_lost :
  let L := layer1 0 0 in
  accumulate L (fst (grouper [[1]] 1)) = [(zeros 2 2, None)] /\
  get (scatter_sum (fold_indices L 0) [[1]]) 0 0 = 1 /\
  get (fst (nth 0 (accumulate L (fst (grouper [[1]] 1))) ([], None))) 0 0 = 0.
Proof.
  intros L.
  assert (Hacc : accumulate L (fst (grouper [[1]] 1)) = [(zeros 2 2, None)]).
  { rewrite accumulate_grouper by lia. reflexivity. }
  split; [exact Hacc|]. split.
  - rewrite scatter_sum_eq. rewrite get_mk by (simpl; lia). cbn. lra.
  - rewrite Hacc. cbn [nth fst]. unfold zeros. rewrite get_mk by lia. reflexivity.
Qed.

(** On every layer and corpus the pass leaves zero matrices: whatever the
    documents, for a positive chunk size the final accumulators are those
    the first chunk created. *)
Lemma accumulation_zero L (corpus : list doc) (chunksize : nat) :
  corpus <> [] -> (0 < chunksize)%nat ->
  accumulate L (fst (grouper corpus chunksize)) = zero_accumulators L.
Proof.
  intros Hne Hc. rewrite accumulate_grouper by exact Hc.
  destruct corpus; [congruence|reflexivity].
Qed.

(** ** The weight system *)

Lemma null_zeros n m : null (zeros n m).
Proof.
  intros i j. unfold zeros. rewrite get_mk_gen.
  destruct ((i <? n) && (j <? m))%nat; reflexivity.
Qed.












Section Weights.

Variable lstsq : matrix -> matrix -> matrix.

Lemma compute_reg_spec lambda0 n :
  (0 < n)%nat -> compute_reg lambda0 (n - 1) = reg_spec lambda0 n.
Proof.
  intros Hn.
  assert (Hs : shaped n n (compute_reg lambda0 (n - 1))).
  { unfold compute_reg, set_entry, scale, eye. mshape.
    replace (n - 1 + 1)%nat with n by lia. apply shaped_mk. }
  apply (shaped_ext n n); [exact Hs|apply shaped_mk|].
  intros i j Hi Hj. rewrite get_compute_reg. unfold reg_spec.
  rewrite get_mk by assumption.
  destruct (Nat.eqb_spec i j); destruct (Nat.ltb_spec i (n - 1));
    destruct (Nat.eqb_spec i (n - 1)); simpl; try reflexivity; lia.
Qed.

Lemma target_matrix_spec L acc :
  target_matrix L acc = P_spec (noise L) (fst acc) (snd acc).
Proof.
  unfold target_matrix, P_spec, scale_cols_but_last.
  destruct (snd acc) as [P|]; apply mk_ext; intros i j Hi Hj;
  match goal with
  | |- context [(j <? ?c - 1)%nat] =>
      destruct (Nat.ltb_spec j (c - 1)); destruct (Nat.eqb_spec j (c - 1));
      try lia; ring
  end.
Qed.

Lemma fold_weights_Ok L acc :
  noise L <> 1 -> (0 < nrows (fst acc))%nat ->
  fold_weights lstsq L acc = Ok (system_weights lstsq L acc).
Proof.
  intros Hn Hpos. unfold fold_weights, computeWeights, system_weights.
  destruct (Req_dec_T (1 - noise L) 0) as [E|E]; [exfalso; lra|].
  rewrite compute_reg_spec by exact Hpos. rewrite target_matrix_spec. reflexivity.
Qed.

Lemma fold_weights_noise_one L acc :
  noise L = 1 -> fold_weights lstsq L acc = Raise ZeroDivisionError.
Proof.
  intros Hn. unfold fold_weights, computeWeights.
  destruct (Req_dec_T (1 - noise L) 0) as [E|E]; [reflexivity|exfalso; lra].
Qed.

Lemma solve_folds_Ok L accs :
  noise L <> 1 -> all_good accs ->
  forall bs, solve_folds lstsq L accs bs = Ok (bs ++ map (system_weights lstsq L) accs).
Proof.
  intros Hn Hall. induction Hall as [|acc accs Hacc Haccs IH]; intros bs.
  - simpl. rewrite app_nil_r. reflexivity.
  - cbn [solve_folds map]. destruct Hacc as [(_ & Hpos & _) _].
    rewrite fold_weights_Ok by assumption.
    rewrite IH, <- app_assoc. reflexivity.
Qed.

Lemma train_Ok L corpus chunksize :
  noise L <> 1 -> may_train L -> (1 <= num_folds L)%nat ->
  train lstsq L corpus chunksize
  = (Ok (with_blocks L
           (blocks L ++ map (system_weights lstsq L)
                            (accumulate L (fst (grouper corpus chunksize))))),
     snd (grouper corpus chunksize)).
Proof.
  intros Hn Hmay HK. unfold train.
  assert (Hguard :
    (negb (input_dimensionality L =? output_dimensionality L)%nat
     && match prototype_ids L with None => true | Some _ => false end) = false).
  { destruct Hmay as [E|E].
    - rewrite E, Nat.eqb_refl. reflexivity.
    - destruct (prototype_ids L); [apply andb_false_r|congruence]. }
  rewrite Hguard. destruct (grouper corpus chunksize) as [chunks rest].
  cbn [fst snd].
  assert (HK0 : (num_folds L =? 0)%nat = false) by (apply Nat.eqb_neq; lia).
  rewrite HK0. cbn [andb].
  rewrite solve_folds_Ok; [reflexivity|exact Hn|].
  apply (accumulate_trace_good L chunks []). constructor.
Qed.

(** C3. A layer constructed with an output dimensionality strictly below
    its input dimensionality and without prototype indices makes [train]
    raise the assertion error with the corpus iterator untouched: no
    document is drawn and no weights are computed. *)
Theorem train_reduction_needs_prototypes
  noise0 lambda0 n o perm L (corpus : list doc) (chunksize : nat) :
  (o < n)%nat ->
  init noise0 lambda0 n (Some o) None perm = Ok L ->
  train lstsq L corpus chunksize = (Raise AssertionError, corpus).
Proof.
  intros Hlt Hinit. apply init_Ok in Hinit.
  destruct Hinit as (Hn & _ & _ & _ & Hp & _ & _ & Hcase).
  assert (E : (o =? n)%nat = false) by (apply Nat.eqb_neq; lia).
  rewrite E in Hcase. destruct Hcase as [Ho _].
  unfold train. rewrite Hn, Ho, Hp.
  assert (E' : (n =? o)%nat = false) by (apply Nat.eqb_neq; lia).
  rewrite E'. reflexivity.
Qed.





End Weights.

(** ** Inference *)

Lemma hidden_loop_app L input avg l1 l2 :
  hidden_loop L input avg (l1 ++ l2)
  = match hidden_loop L input avg l1 with
    | Ok avg' => hidden_loop L input avg' l2
    | Raise e => Raise e
    end.
Proof.
  revert avg. induction l1 as [|k l1 IH]; intros avg; simpl; [reflexivity|].
  destruct (hidden_step L input avg k); [apply IH|reflexivity].
Qed.

Lemma sum_upto_S n f : sum_upto (S n) f = sum_upto n f + f n.
Proof.
  unfold sum_upto. rewrite seq_S, map_app, Rsum_app. simpl. lra.
Qed.

Lemma madd_mk o nd f (B : matrix) :
  madd (mk o nd f) B = mk o nd (fun i j => f i j + get B i j).
Proof.
  destruct o as [|o]; [reflexivity|].
  unfold madd. mshape. apply mk_ext. intros i j Hi Hj.
  rewrite get_mk by assumption. reflexivity.
Qed.

Lemma intermediate_fold_hidden L input n nd k W :
  well_formed L -> input_dimensionality L = n -> shaped n nd input ->
  (k < num_folds L)%nat -> nth_error (blocks L) k = Some W ->
  get_intermediate_representations W (rows_at input (fold_indices L k))
  = fold_hidden L input k /\
  fold_hidden L input k
  = mk (nrows W) nd (fun i j =>
      sum_upto (ncols W) (fun c =>
        get W i c * get (vstack (rows_at input (fold_indices L k)) (ones 1 nd)) c j)).
Proof.
  intros HC Hn Hin Hk HW.
  destruct (fold_valid L k HC Hk) as [Hne Hv]. rewrite Hn in Hv.
  assert (Hpos : (0 < n)%nat).
  { destruct (fold_indices L k) as [|b bl]; [congruence|]. inversion Hv; lia. }
  assert (Hnc : ncols input = nd) by (apply (shaped_ncols n nd); assumption).
  assert (Hbc : ncols (rows_at input (fold_indices L k)) = nd).
  { destruct (fold_indices L k) as [|b bl]; [congruence|].
    inversion Hv; subst. unfold ncols, rows_at. simpl.
    destruct Hin as [Hl Hf]. rewrite Forall_forall in Hf. apply Hf.
    apply nth_In. lia. }
  assert (HX : ncols (vstack (rows_at input (fold_indices L k)) (ones 1 nd)) = nd).
  { unfold vstack. destruct (fold_indices L k) as [|b bl] eqn:Eb; [congruence|].
    unfold ncols in *. simpl in *. exact Hbc. }
  unfold get_intermediate_representations, fold_hidden.
  rewrite Hbc, Hnc. rewrite (nth_error_nth _ _ _ HW).
  split; [reflexivity|]. unfold mmul. rewrite HX. reflexivity.
Qed.

Section RunningAverage.

Variables (L : mDALayer) (input : matrix) (n nd o : nat).
Hypothesis HC : well_formed L.
Hypothesis Hn : input_dimensionality L = n.
Hypothesis Hin : shaped n nd input.
Hypothesis HT : trained L o.

Lemma fold_hidden_shape k :
  (k < num_folds L)%nat ->
  exists W, nth_error (blocks L) k = Some W /\
    get_intermediate_representations W (rows_at input (fold_indices L k))
    = fold_hidden L input k /\
    fold_hidden L input k = mk o nd (get (fold_hidden L input k)).
Proof.
  intros Hk. destruct HT as [_ HW]. destruct (HW k Hk) as [W [HWk [Hrows _]]].
  exists W. split; [exact HWk|].
  destruct (intermediate_fold_hidden L input n nd k W HC Hn Hin Hk HWk) as [H1 H2].
  split; [exact H1|]. rewrite Hrows in H2.
  symmetry. apply mk_get. rewrite H2. apply shaped_mk.
Qed.

(** The incremental update keeps the mean of the folds seen so far. *)
Lemma hidden_loop_mean m :
  (m < num_folds L)%nat ->
  hidden_loop L input None (seq 0 (S m))
  = Ok (Some (mean_hidden L input o nd (S m))).
Proof.
  induction m as [|m IH]; intros Hm.
  - destruct (fold_hidden_shape 0 Hm) as [W [HW [HI HS]]].
    cbn [seq hidden_loop]. unfold hidden_step. rewrite HW, HI.
    do 2 f_equal. rewrite HS. unfold mean_hidden. apply mk_ext.
    intros i j Hi Hj. rewrite sum_upto_S. unfold sum_upto.
    cbn [seq map Rsum fold_right INR]. field.
  - rewrite seq_S, hidden_loop_app, IH by lia.
    destruct (fold_hidden_shape (S m) Hm) as [W [HW [HI HS]]].
    cbn [Nat.add hidden_loop]. unfold hidden_step. rewrite HW, HI.
    do 2 f_equal. unfold mean_hidden at 1. rewrite madd_mk.
    unfold mean_hidden. apply mk_ext. intros i j Hi Hj.
    set (H := fold_hidden L input (S m)) in *.
    set (A := mk o nd (fun i0 j0 =>
                sum_upto (S m) (fun k => get (fold_hidden L input k) i0 j0)
                / INR (S m))) in *.
    assert (HsubR : nrows (msub H A) = o) by (unfold msub; rewrite HS; mshape; reflexivity).
    assert (HsubC : ncols (msub H A) = nd)
      by (unfold msub; rewrite HS; mshape; reflexivity).
    unfold smul. rewrite HsubR, HsubC. rewrite get_mk by assumption.
    unfold msub. rewrite HS at 1 2. mshape. rewrite get_mk by assumption.
    unfold A. rewrite get_mk by assumption. fold H.
    rewrite (sum_upto_S (S m)). fold H.
    replace (S m + 1)%nat with (S (S m)) by lia.
    assert (INR (S m) <> 0) by (apply not_0_INR; lia).
    assert (INR (S (S m)) <> 0) by (apply not_0_INR; lia).
    rewrite (S_INR (S m)) in *. field. split; assumption.
Qed.

End RunningAverage.

(** C7. On a well-formed trained layer and an input of the layer's input
    dimensionality, inference returns the element-wise [tanh] of what the
    loop over the folds leaves in the running average, and that running
    average, maintained by [avg += (1 / (k + 1)) * (new - avg)] from the
    per-fold products of [weights[k]] with the fold's rows of the input
    augmented by a row of ones, is the arithmetic mean of those products
    over all folds. *)
Theorem inference_mean_tanh (L : mDALayer) (input : matrix) (nd o : nat) :
  well_formed L -> shaped (input_dimensionality L) nd input -> trained L o ->
  hidden_loop L input None (seq 0 (num_folds L))
    = Ok (Some (mean_hidden L input o nd (num_folds L))) /\
  get_hidden_representations L input
    = Ok (mk o nd (fun i j =>
            tanh (sum_upto (num_folds L) (fun k => get (fold_hidden L input k) i j)
                  / INR (num_folds L)))).
Proof.
  intros HC Hin HT.
  assert (Hloop : hidden_loop L input None (seq 0 (num_folds L))
                  = Ok (Some (mean_hidden L input o nd (num_folds L)))).
  { destruct HT as [HK HW]. destruct (num_folds L) as [|m] eqn:EK; [lia|].
    apply (hidden_loop_mean L input (input_dimensionality L) nd o HC eq_refl Hin).
    - split; [lia|]. rewrite EK. exact HW.
    - lia. }
  split; [exact Hloop|].
  unfold get_hidden_representations. rewrite Hloop. f_equal.
  unfold mean_hidden, mmap, mk. rewrite map_map. apply map_ext. intros i.
  rewrite map_map. reflexivity.
Qed.

Lemma inference_mean_tanh_witness :
  get_hidden_representations (with_blocks (layer1 0 0) [[[2; 3]]]) [[5]]
  = Ok (mk 1 1 (fun i j =>
          tanh (sum_upto 1 (fun k =>
                  get (fold_hidden (with_blocks (layer1 0 0) [[[2; 3]]]) [[5]] k) i j)
                / INR 1))).
Proof.
  apply (inference_mean_tanh (with_blocks (layer1 0 0) [[[2; 3]]]) [[5]] 1 1).
  - exact (well_formed_layer1 0 0).
  - split; [reflexivity|]. constructor; [reflexivity|constructor].
  - split; [simpl; lia|]. intros k Hk. simpl in Hk.
    assert (k = 0%nat) by lia. subst k.
    exists [[2; 3]]. repeat split; reflexivity.
Defined.

(** ** The corrupted second moment at a concrete scatter matrix *)

(** C1. With [noise = 1/2] and the scatter matrix [[1, 1], [1, 1]] (one
    document, one term of weight 1), the bias cross-terms of [Q] are
    [scatter / (1 - noise) = 2], not [(1 - noise) * scatter = 1/2]; the
    diagonal entries are as claimed, [(1 - noise) * scatter] off the bias
    and [scatter] on it. *)
Theorem compute_Q_bias_cross_terms :
  let scatter := [[1; 1]; [1; 1]] in
  let Q := compute_Q (1 / 2) scatter in
  get Q 1 0 = 2 /\ get Q 0 1 = 2 /\
  (1 - 1 / 2) * get scatter 1 0 = 1 / 2 /\
  (1 - 1 / 2) * get scatter 0 1 = 1 / 2 /\
  get Q 0 0 = (1 - 1 / 2) * get scatter 0 0 /\
  get Q 1 1 = get scatter 1 1.
Proof.
  intros scatter Q. unfold Q.
  assert (Hsq : nrows scatter = ncols scatter) by reflexivity.
  assert (H0 : (0 < nrows scatter)%nat) by (simpl; lia).
  assert (H1 : (1 < nrows scatter)%nat) by (simpl; lia).
  rewrite !(compute_Q_entry (1 / 2) scatter) by assumption.
  cbn [nrows scatter length Nat.sub Nat.eqb orb get nth].
  repeat split; try lra; field.
Qed.

(** The scatter matrix above is the one [scatter += ...] computes from the
    one-document corpus for the only fold. *)
Lemma scatter_one_document :
  fst (snd (fold_body (layer1 (1 / 2) 0) (corpus2csc [[1]] 1) None
                      (zero_accumulators (layer1 (1 / 2) 0)) 0))
  = [[1; 1]; [1; 1]].
Proof.
  transitivity (scatter_sum (fold_indices (layer1 (1 / 2) 0) 0) [[1]]).
  { exact (first_chunk_local (layer1 (1 / 2) 0) [[1]] 0
             (well_formed_layer1 (1 / 2) 0) ltac:(discriminate) ltac:(simpl; lia)). }
  rewrite scatter_sum_eq.
  apply (shaped_ext 2 2).
  - apply shaped_mk.
  - split; [reflexivity|]. repeat constructor.
  - intros i j Hi Hj.
    rewrite get_mk by assumption.
    destruct i as [|[|i]]; destruct j as [|[|j]]; try lia;
      cbn; lra.
Qed.

(** For a square scatter matrix the entries of [Q] off the bias row and
    column are as the corruption model has them, and the bias cross-terms
    are the scatter entries divided by [1 - noise]. *)
Lemma compute_Q_regions noise0 (S : matrix) (i j : nat) :
  nrows S = ncols S -> (i < nrows S - 1)%nat -> (j < nrows S - 1)%nat ->
  (i <> j -> get (compute_Q noise0 S) i j = (1 - noise0) ^ 2 * get S i j) /\
  get (compute_Q noise0 S) i i = (1 - noise0) * get S i i /\
  get (compute_Q noise0 S) (nrows S - 1) (nrows S - 1)
    = get S (nrows S - 1) (nrows S - 1) /\
  get (compute_Q noise0 S) (nrows S - 1) i
    = get S (nrows S - 1) i * (1 / (1 - noise0)) /\
  get (compute_Q noise0 S) i (nrows S - 1)
    = get S i (nrows S - 1) * (1 / (1 - noise0)).
Proof.
  intros Hsq Hi Hj.
  rewrite !compute_Q_entry by lia.
  rewrite !Nat.eqb_refl.
  assert (E1 : (i =? nrows S - 1)%nat = false) by (apply Nat.eqb_neq; lia).
  assert (E2 : (j =? nrows S - 1)%nat = false) by (apply Nat.eqb_neq; lia).
  assert (E3 : (nrows S - 1 =? i)%nat = false) by (apply Nat.eqb_neq; lia).
  rewrite E1, E2, E3. simpl.
  repeat split; try ring.
  intros Hij. apply Nat.eqb_neq in Hij. rewrite Hij. ring.
Qed.

(** ** Witnesses for the weight system *)

Lemma train_reduction_needs_prototypes_witness :
  train (fun _ B => B)
        {| noise := 1 / 2; lambda_ := 1 / 100;
           input_dimensionality := 10; output_dimensionality := 3;
           randomized_indices := seq 0 10; prototype_ids := None;
           num_folds := ceil_div 10 3; blocks := [] |}
        [[1]] 100
  = (Raise AssertionError, [[1]]).
Proof.
  apply (train_reduction_needs_prototypes (fun _ B => B)
           (1 / 2) (1 / 100) 10%nat 3%nat (seq 0 10)).
  - lia.
  - reflexivity.
Defined.



(** ** Training a second time *)

Section Retrain.

Variable lstsq : matrix -> matrix -> matrix.

Lemma solve_folds_inv L accs :
  all_good accs ->
  forall bs bs', solve_folds lstsq L accs bs = Ok bs' ->
  bs' = bs ++ map (system_weights lstsq L) accs /\ (accs = [] \/ noise L <> 1).
Proof.
  intros Hall bs bs' H.
  destruct (Req_dec_T (noise L) 1) as [E|E].
  - destruct accs as [|acc accs].
    + simpl in H. inversion H. rewrite app_nil_r. auto.
    + cbn [solve_folds] in H. rewrite fold_weights_noise_one in H by exact E.
      discriminate.
  - rewrite (solve_folds_Ok lstsq L accs E Hall) in H. inversion H. auto.
Qed.

Lemma train_inv L corpus chunksize L1 rest :
  train lstsq L corpus chunksize = (Ok L1, rest) ->
  may_train L /\
  exists bs,
    solve_folds lstsq L (accumulate L (fst (grouper corpus chunksize))) (blocks L)
      = Ok bs /\
    L1 = with_blocks L bs.
Proof.
  unfold train, may_train. intros H.
  assert (Hrun :
    (let (chunks, rest0) := grouper corpus chunksize in
     if (num_folds L =? 0)%nat
        && match chunks with [] => false | _ :: _ => true end
     then (Raise UnboundLocalError, skipn chunksize corpus)
     else match solve_folds lstsq L (accumulate L chunks) (blocks L) with
          | Ok bs => (Ok (with_blocks L bs), rest0)
          | Raise e => (Raise e, rest0)
          end) = (Ok L1, rest) ->
    exists bs,
      solve_folds lstsq L (accumulate L (fst (grouper corpus chunksize))) (blocks L)
        = Ok bs /\ L1 = with_blocks L bs).
  { destruct (grouper corpus chunksize) as [chunks r]. cbn [fst].
    destruct ((num_folds L =? 0)%nat
              && match chunks with [] => false | _ :: _ => true end);
      [discriminate|].
    destruct (solve_folds lstsq L (accumulate L chunks) (blocks L)) as [bs|e];
      intros H0; inversion H0. exists bs. auto. }
  destruct (Nat.eqb_spec (input_dimensionality L) (output_dimensionality L)) as [E|E].
  - split; [left; exact E|]. apply Hrun. exact H.
  - destruct (prototype_ids L) as [ids|]; simpl in H; [|discriminate].
    split; [right; discriminate|]. apply Hrun. exact H.
Qed.

Lemma length_accumulate L corpus chunksize :
  well_formed L -> corpus <> [] -> (0 < chunksize)%nat ->
  length (accumulate L (fst (grouper corpus chunksize))) = num_folds L.
Proof.
  intros HC Hne Hc. rewrite accumulate_grouper by assumption.
  destruct corpus; [congruence|]. apply length_zero_accumulators.
Qed.

Lemma train_appends L corpus chunksize :
  well_formed L -> may_train L -> noise L <> 1 ->
  corpus <> [] -> (0 < chunksize)%nat ->
  exists new,
    train lstsq L corpus chunksize = (Ok (with_blocks L (blocks L ++ new)), []) /\
    length new = num_folds L.
Proof.
  intros HC Hmay Hn Hne Hc.
  pose proof (length_accumulate L corpus chunksize HC Hne Hc) as Hlen.
  assert (Hrest : snd (grouper corpus chunksize) = []).
  { destruct (grouper_spec corpus chunksize Hc) as [chunks [Hg _]].
    rewrite Hg. reflexivity. }
  exists (map (system_weights lstsq L) (accumulate L (fst (grouper corpus chunksize)))).
  rewrite train_Ok by (try assumption; apply well_formed_folds; exact HC).
  rewrite Hrest, length_map. auto.
Qed.

Lemma hidden_loop_blocks L bs input folds :
  (forall k, In k folds -> nth_error bs k = nth_error (blocks L) k) ->
  forall avg,
  hidden_loop (with_blocks L bs) input avg folds = hidden_loop L input avg folds.
Proof.
  induction folds as [|k folds IH]; intros Hin avg; [reflexivity|].
  cbn [hidden_loop].
  assert (Hs : hidden_step (with_blocks L bs) input avg k = hidden_step L input avg k).
  { unfold hidden_step. cbn [blocks with_blocks].
    rewrite (Hin k (or_introl eq_refl)). reflexivity. }
  rewrite Hs. destruct (hidden_step L input avg k); [|reflexivity].
  apply IH. intros k' Hk'. apply Hin. right. exact Hk'.
Qed.

(** C10. After a first successful [train] on a well-formed layer that
    holds no weights yet (non-empty corpus, chunk size at least 1), a
    second [train] on a non-empty corpus returns normally, keeps the
    existing weights and appends [num_folds] further matrices, so that
    [blocks] holds [2 * num_folds] entries; inference reads only the first
    [num_folds] entries, so its result on every input is the one it gave
    before the second call. *)
Theorem retrain_appends (L0 L1 : mDALayer) (corpus1 corpus2 rest1 : list doc)
  (chunksize1 chunksize2 : nat) :
  well_formed L0 -> blocks L0 = [] ->
  corpus1 <> [] -> (0 < chunksize1)%nat ->
  train lstsq L0 corpus1 chunksize1 = (Ok L1, rest1) ->
  corpus2 <> [] -> (0 < chunksize2)%nat ->
  exists L2 new,
    train lstsq L1 corpus2 chunksize2 = (Ok L2, []) /\
    blocks L2 = blocks L1 ++ new /\
    length new = num_folds L1 /\
    length (blocks L1) = num_folds L1 /\
    length (blocks L2) = (2 * num_folds L1)%nat /\
    (forall k, (k < num_folds L1)%nat ->
       nth_error (blocks L2) k = nth_error (blocks L1) k) /\
    (forall input,
       get_hidden_representations L2 input = get_hidden_representations L1 input).
Proof.
  intros HC Hb0 Hne1 Hc1 Htrain Hne2 Hc2.
  destruct (train_inv L0 corpus1 chunksize1 L1 rest1 Htrain) as [Hmay [bs [Hsolve HL1]]].
  pose proof (length_accumulate L0 corpus1 chunksize1 HC Hne1 Hc1) as Hlen1.
  destruct (solve_folds_inv L0 _
              (proj2 (accumulate_trace_good L0 (fst (grouper corpus1 chunksize1)) []
                        ltac:(constructor))) _ _ Hsolve) as [Hbs Hnoise].
  rewrite Hb0 in Hbs. cbn [app] in Hbs.
  assert (Hlenbs : length bs = num_folds L0) by (rewrite Hbs, length_map; exact Hlen1).
  assert (Hn : noise L0 <> 1).
  { destruct Hnoise as [E|E]; [|exact E].
    pose proof (well_formed_folds L0 HC) as HK.
    unfold accumulate in Hlen1. rewrite E in Hlen1. simpl in Hlen1. lia. }
  subst L1.
  destruct (train_appends (with_blocks L0 bs) corpus2 chunksize2 HC Hmay Hn Hne2 Hc2)
    as [new [Ht Hnew]].
  cbn [blocks with_blocks num_folds] in *.
  exists (with_blocks (with_blocks L0 bs) (bs ++ new)), new.
  cbn [blocks with_blocks num_folds].
  split; [exact Ht|]. split; [reflexivity|]. split; [exact Hnew|].
  split; [exact Hlenbs|].
  split; [rewrite length_app; lia|].
  split.
  - intros k Hk. apply nth_error_app1. lia.
  - intros input. unfold get_hidden_representations.
    cbn [num_folds with_blocks].
    rewrite (hidden_loop_blocks (with_blocks L0 bs) (bs ++ new)); [reflexivity|].
    intros k Hk. apply in_seq in Hk. cbn [blocks with_blocks].
    apply nth_error_app1. lia.
Qed.

End Retrain.

Lemma retrain_appends_witness :
  let lstsq := fun (_ B : matrix) => B in
  let L0 := layer1 (1 / 2) (1 / 100) in
  let L1 := with_blocks L0
              (blocks L0 ++ map (system_weights lstsq L0)
                                (accumulate L0 (fst (grouper [[1]] 1)))) in
  exists L2 new,
    train lstsq L1 [[2]; [3]] 1 = (Ok L2, []) /\
    blocks L2 = blocks L1 ++ new /\
    length new = num_folds L1 /\
    length (blocks L1) = num_folds L1 /\
    length (blocks L2) = (2 * num_folds L1)%nat /\
    (forall k, (k < num_folds L1)%nat ->
       nth_error (blocks L2) k = nth_error (blocks L1) k) /\
    (forall input,
       get_hidden_representations L2 input = get_hidden_representations L1 input).
Proof.
  intros lstsq L0 L1.
  apply (retrain_appends lstsq L0 L1 [[1]] [[2]; [3]] (snd (grouper [[1]] 1)) 1 1).
  - exact (well_formed_layer1 (1 / 2) (1 / 100)).
  - reflexivity.
  - discriminate.
  - lia.
  - apply train_Ok.
    + simpl. lra.
    + left. reflexivity.
    + simpl. lia.
  - discriminate.
  - lia.
Defined.

(** * Beyond the training pipeline: the iterator, the edges of the
      constructor and of [train], and the transformation of a corpus *)

(** ** Further definitions *)

(** [FilteringDualGrouper.__iter__]: the pairs it yields, in order. *)
Definition FilteringDualGrouper (corpus : list doc) (num_terms : nat)
  (filter_dimensions : option (list nat)) (chunksize : nat)
  : list (matrix * option matrix) :=
  map (dual_item num_terms filter_dimensions) (fst (grouper corpus chunksize)).

(** A document as a dense column over [num_terms] terms. *)
Definition dense_column (num_terms : nat) (d : doc) : list R :=
  map (fun i => nth i d 0) (seq 0 num_terms).

(** [matutils.corpus2dense(chunk, num_terms)]: one column per document. *)
Definition corpus2dense (chunk : list doc) (num_terms : nat) : matrix :=
  mk num_terms (length chunk) (fun i k => nth i (nth k chunk []) 0).

(** The transformed representation of one document on [o] output
    dimensions: the mean over the folds of the weights applied to the
    document's augmented fold vector, through [tanh]. *)
Definition transform_doc (L : mDALayer) (o : nat) (d : doc) : list R :=
  map (fun i =>
         tanh (sum_upto (num_folds L) (fun k =>
                 sum_upto (length (fold_indices L k) + 1) (fun c =>
                   get (nth k (blocks L) []) i c
                   * nth c (augmented (fold_indices L k) d) 0))
               / INR (num_folds L)))
      (seq 0 o).

Section Transform.

(** [matutils.any2sparse], the conversion of a dense vector to the sparse
    format of the corpus, with results in [V]. *)
Variable V : Type.
Variable any2sparse : list R -> V.

(** What [transformed_corpus] yields for one document. *)
Inductive emitted : Type :=
| Column (column : list R)
| Sparse (v : V).

Definition emit (numpy_output : bool) (column : list R) : emitted :=
  if numpy_output then Column column else Sparse (any2sparse column).

(** The generator [transformed_corpus] of [__getitem__] for a non-zero
    [chunksize]: per chunk, the columns of the hidden representation of the
    densified chunk.  Returns what is yielded and the exception that ends
    the generator, if any. *)
Fixpoint transformed_chunks (L : mDALayer) (numpy_output : bool)
  (chunks : list (list doc)) : list emitted * option exn :=
  match chunks with
  | [] => ([], None)
  | doc_chunk :: rest =>
      let chunk := corpus2dense doc_chunk (input_dimensionality L) in
      match get_hidden_representations L chunk with
      | Raise e => ([], Some e)
      | Ok hidden =>
          let (ys, err) := transformed_chunks L numpy_output rest in
          (map (emit numpy_output) (transpose hidden) ++ ys, err)
      end
  end.

Definition transformed_corpus (L : mDALayer) (input_data : list doc)
  (chunksize : nat) (numpy_output : bool) : list emitted * option exn :=
  transformed_chunks L numpy_output (fst (grouper input_data chunksize)).

(** [__getitem__] on a single document (not a corpus) with a non-zero
    [chunksize]: [list(transformed_corpus()).pop()] on the one-document
    corpus. *)
Definition getitem_document (L : mDALayer) (d : doc) (chunksize : nat)
  (numpy_output : bool) : result emitted :=
  match transformed_corpus L [d] chunksize numpy_output with
  | (_, Some e) => Raise e
  | (ys, None) =>
      match rev ys with
      | [] => Raise IndexError
      | y :: _ => Ok y
      end
  end.

End Transform.

Arguments Column {V} column.
Arguments Sparse {V} v.

(** ** Edges of the constructor *)

(** The constructor fails, with ZeroDivisionError, exactly when the output
    dimensionality it settles on is 0: an explicit 0, or none given for a
    layer of no input dimension.  In every other case, and only then, it
    returns a layer. *)
Theorem init_zero_division_iff noise0 lambda0 n o protos perm :
  (init noise0 lambda0 n o protos perm = Raise ZeroDivisionError <->
   o = Some 0%nat \/ (o = None /\ n = 0%nat)) /\
  ((exists L, init noise0 lambda0 n o protos perm = Ok L) <->
   ~ (o = Some 0%nat \/ (o = None /\ n = 0%nat))).
Proof.
  unfold init. destruct o as [o'|].
  - destruct (Nat.eqb_spec o' n) as [E|E].
    + subst o'. destruct (Nat.eqb_spec n 0) as [E0|E0].
      * subst n. split.
        -- split; [intros _; left; reflexivity|reflexivity].
        -- split; [intros [L HL]; discriminate|].
           intros H. exfalso. apply H. left. reflexivity.
      * split.
        -- split; [discriminate|].
           intros [H|[H _]]; [inversion H; lia|discriminate].
        -- split; [|intros _; eexists; reflexivity].
           intros _ [H|[H _]]; [inversion H; lia|discriminate].
    + destruct (Nat.eqb_spec o' 0) as [E0|E0].
      * subst o'. split.
        -- split; [intros _; left; reflexivity|reflexivity].
        -- split; [intros [L HL]; discriminate|].
           intros H. exfalso. apply H. left. reflexivity.
      * split.
        -- split; [discriminate|].
           intros [H|[H _]]; [inversion H; lia|discriminate].
        -- split; [|intros _; eexists; reflexivity].
           intros _ [H|[H _]]; [inversion H; lia|discriminate].
  - destruct (Nat.eqb_spec n 0) as [E0|E0].
    + split.
      * split; [intros _; right; auto|reflexivity].
      * split; [intros [L HL]; discriminate|].
        intros H. exfalso. apply H. right. auto.
    + split.
      * split; [discriminate|]. intros [H|[_ H]]; [discriminate|lia].
      * split; [|intros _; eexists; reflexivity].
        intros _ [H|[_ H]]; [discriminate|lia].
Qed.

(** An output dimensionality above the input dimensionality gives a single
    fold that holds the whole permutation. *)
Theorem init_output_exceeds_input noise0 lambda0 n o protos perm L :
  (0 < n < o)%nat -> Permutation perm (seq 0 n) ->
  init noise0 lambda0 n (Some o) protos perm = Ok L ->
  num_folds L = 1%nat /\ fold_indices L 0 = perm /\
  output_dimensionality L = o.
Proof.
  intros Hno HP Hinit. apply init_Ok in Hinit.
  destruct Hinit as (_ & Hout & Hnf & _ & _ & _ & _ & Hcase).
  assert (E : (o =? n)%nat = false) by (apply Nat.eqb_neq; lia).
  rewrite E in Hcase. destruct Hcase as [Ho Hidx].
  destruct (ceil_div_spec n (output_dimensionality L) Hout) as [H1 H2].
  rewrite <- Hnf in H1, H2. rewrite Ho in *.
  assert (HK : num_folds L = 1%nat).
  { specialize (H2 1%nat ltac:(lia)).
    destruct (num_folds L) as [|K]; [simpl in H1; lia|lia]. }
  split; [exact HK|]. split; [|reflexivity].
  unfold fold_indices. rewrite Ho, Hidx. unfold py_slice. simpl.
  rewrite Nat.add_0_r, Nat.sub_0_r. apply firstn_all2.
  rewrite (Permutation_length HP), length_seq. lia.
Qed.

Lemma init_output_exceeds_input_witness :
  let L := {| noise := 0; lambda_ := 0; input_dimensionality := 2;
              output_dimensionality := 5;
              randomized_indices := [1; 0]%nat;
              prototype_ids := Some [0; 1; 0; 1; 0]%nat;
              num_folds := ceil_div 2 5; blocks := [] |} in
  num_folds L = 1%nat /\ fold_indices L 0 = [1; 0]%nat /\
  output_dimensionality L = 5%nat.
Proof.
  intros L.
  apply (init_output_exceeds_input 0 0 2%nat 5%nat (Some [0; 1; 0; 1; 0]%nat)
           [1; 0]%nat L).
  - lia.
  - simpl. apply perm_swap.
  - reflexivity.
Defined.

(** ** The stream of chunks *)

Lemma map_nth_seq {A B : Type} (d : A) (g : A -> B) (l : list A) :
  map (fun k => g (nth k l d)) (seq 0 (length l)) = map g l.
Proof.
  rewrite <- (list_eq_nth d l) at 2. rewrite map_map. reflexivity.
Qed.

Lemma transpose_mk n m f :
  (0 < n)%nat -> transpose (mk n m f) = mk m n (fun k i => f i k).
Proof.
  intros Hn. unfold transpose. rewrite nrows_mk, ncols_mk by exact Hn.
  apply mk_ext. intros k i Hk Hi. apply get_mk; assumption.
Qed.

Lemma transpose_corpus2csc chunk n :
  (0 < n)%nat -> transpose (corpus2csc chunk n) = map (dense_column n) chunk.
Proof.
  intros Hn. unfold corpus2csc. rewrite transpose_mk by exact Hn.
  unfold mk, dense_column.
  apply (map_nth_seq ([] : doc)
           (fun d : doc => map (fun i => nth i d 0) (seq 0 n)) chunk).
Qed.

(** With a positive chunk size and at least one term, the jobs the iterator
    yields are rectangular, of [num_terms] rows and between 1 and
    [chunksize] columns, and their columns, read job after job, are the
    documents of the corpus in order, each exactly once. *)
Theorem dual_grouper_stream (corpus : list doc) (num_terms : nat)
  (filter_dimensions : option (list nat)) (chunksize : nat) :
  (0 < num_terms)%nat -> (0 < chunksize)%nat ->
  let items := FilteringDualGrouper corpus num_terms filter_dimensions chunksize in
  concat (map (fun item => transpose (fst item)) items)
    = map (dense_column num_terms) corpus /\
  Forall (fun item => exists m, (1 <= m <= chunksize)%nat /\
                                shaped num_terms m (fst item)) items.
Proof.
  intros Hn Hc items. unfold items, FilteringDualGrouper, grouper.
  destruct (grouper_loop_spec chunksize Hc (S (length corpus)) corpus ltac:(lia))
    as [chunks [Hg [Hcat [Hne Hle]]]].
  rewrite Hg. cbn [fst]. split.
  - rewrite map_map. cbn [dual_item fst].
    rewrite <- Hcat. rewrite concat_map. f_equal.
    apply map_ext. intros chunk. apply transpose_corpus2csc. exact Hn.
  - apply Forall_forall. intros item Hitem.
    apply in_map_iff in Hitem. destruct Hitem as [chunk [<- Hin]].
    rewrite Forall_forall in Hne, Hle.
    specialize (Hne chunk Hin). specialize (Hle chunk Hin).
    exists (length chunk). split.
    + destruct chunk; [congruence|simpl in *; lia].
    + cbn [dual_item fst]. unfold corpus2csc. apply shaped_mk.
Qed.

Lemma dual_grouper_stream_witness :
  concat (map (fun item => transpose (fst item))
              (FilteringDualGrouper [[1; 2]; [3; 4]; [5; 6]] 2 None 2))
  = map (dense_column 2) [[1; 2]; [3; 4]; [5; 6]].
Proof.
  apply (proj1 (dual_grouper_stream [[1; 2]; [3; 4]; [5; 6]] 2 None 2
                  ltac:(lia) ltac:(lia))).
Defined.

(** The projection the iterator yields beside a job is absent exactly when
    no filter dimensions were given; otherwise it has one row per filter
    dimension, in the order given, and row [p], column [k] holds the weight
    of term [filter[p]] in document [k] of the chunk. *)
Theorem dual_item_filtered (num_terms : nat) (filter_dimensions : option (list nat))
  (chunk : list doc) :
  match filter_dimensions with
  | Some dims => Forall (fun i => (i < num_terms)%nat) dims
  | None => True
  end ->
  match filter_dimensions, snd (dual_item num_terms filter_dimensions chunk) with
  | None, None => True
  | Some dims, Some filtered =>
      nrows filtered = length dims /\
      Forall (fun row => length row = length chunk) filtered /\
      forall p k, (p < length dims)%nat -> (k < length chunk)%nat ->
        get filtered p k = nth (nth p dims 0%nat) (nth k chunk []) 0
  | _, _ => False
  end.
Proof.
  intros Hv. destruct filter_dimensions as [dims|]; cbn [dual_item snd]; [|exact I].
  split; [unfold nrows, rows_at; apply length_map|]. split.
  - apply Forall_forall. intros row Hrow. unfold rows_at in Hrow.
    apply in_map_iff in Hrow. destruct Hrow as [i [<- Hi]].
    rewrite Forall_forall in Hv. unfold corpus2csc.
    rewrite nth_mk_row by (apply Hv; exact Hi).
    rewrite length_map, length_seq. reflexivity.
  - intros p k Hp Hk. rewrite get_rows_at_csc by assumption.
    unfold target_of.
    rewrite (nth_indep (map (fun i0 => nth i0 (nth k chunk []) 0) dims) 0
                       ((fun i0 => nth i0 (nth k chunk []) 0) 0%nat))
      by (rewrite length_map; exact Hp).
    apply (map_nth (fun i0 => nth i0 (nth k chunk []) 0)).
Qed.

Lemma dual_item_filtered_witness :
  match snd (dual_item 3 (Some [2; 0]%nat) [[1; 2; 3]; [4; 5; 6]]) with
  | Some filtered => get filtered 0 1 = 6
  | None => False
  end.
Proof.
  pose proof (dual_item_filtered 3 (Some [2; 0]%nat) [[1; 2; 3]; [4; 5; 6]]
                ltac:(repeat constructor)) as H.
  cbv beta iota in H.
  destruct (snd (dual_item 3 (Some [2; 0]%nat) [[1; 2; 3]; [4; 5; 6]]))
    as [filtered|]; [|exact H].
  destruct H as (_ & _ & H). apply (H 0%nat 1%nat); simpl; lia.
Defined.

(** ** Edges of training and of inference *)

Lemma hidden_loop_index_error L input m :
  forall a avg,
  (a <= length (blocks L) < a + m)%nat ->
  hidden_loop L input avg (seq a m) = Raise IndexError.
Proof.
  induction m as [|m IH]; intros a avg Ha; [lia|].
  cbn [seq hidden_loop]. unfold hidden_step.
  destruct (nth_error (blocks L) a) as [W|] eqn:EW.
  - assert (Hlt : (a < length (blocks L))%nat)
      by (apply nth_error_Some; rewrite EW; discriminate).
    destruct avg; apply IH; lia.
  - reflexivity.
Qed.

Lemma hidden_raises_index_error (L : mDALayer) (input : matrix) :
  (length (blocks L) < num_folds L)%nat ->
  get_hidden_representations L input = Raise IndexError.
Proof.
  intros H. unfold get_hidden_representations.
  rewrite hidden_loop_index_error by lia. reflexivity.
Qed.

(** A layer holding fewer weight matrices than it has folds, an untrained
    one in particular, makes inference fail with IndexError on every
    input. *)
Theorem inference_without_weights (L : mDALayer) (input : matrix) :
  (length (blocks L) < num_folds L)%nat ->
  get_hidden_representations L input = Raise IndexError.
Proof. apply hidden_raises_index_error. Qed.

Lemma inference_without_weights_witness :
  get_hidden_representations (layer2 0 0) [[1]; [2]] = Raise IndexError.
Proof.
  apply (inference_without_weights (layer2 0 0) [[1]; [2]]). simpl. lia.
Defined.

Section TrainEdges.

Variable lstsq : matrix -> matrix -> matrix.

Lemma train_guard_false L :
  may_train L ->
  (negb (input_dimensionality L =? output_dimensionality L)%nat
   && match prototype_ids L with None => true | Some _ => false end) = false.
Proof.
  intros [E|E].
  - rewrite E, Nat.eqb_refl. reflexivity.
  - destruct (prototype_ids L); [apply andb_false_r|congruence].
Qed.

(** Training on an empty corpus returns normally, for every chunk size,
    and appends nothing: a layer that held no weights still holds none, and
    inference on it fails with IndexError. *)
Theorem train_empty_corpus (L : mDALayer) (chunksize : nat) :
  may_train L ->
  exists L',
    train lstsq L [] chunksize = (Ok L', []) /\
    blocks L' = blocks L /\
    (blocks L = [] -> (1 <= num_folds L)%nat ->
     forall input, get_hidden_representations L' input = Raise IndexError).
Proof.
  intros Hmay. exists (with_blocks L (blocks L)). split; [|split].
  - unfold train. rewrite (train_guard_false L Hmay).
    unfold grouper. cbn [length grouper_loop].
    rewrite firstn_nil, skipn_nil. rewrite andb_false_r. reflexivity.
  - reflexivity.
  - intros Hb HK input. apply hidden_raises_index_error.
    cbn [blocks with_blocks num_folds]. rewrite Hb. simpl. lia.
Qed.

(** With [noise = 1] training on a non-empty corpus reads the whole corpus
    and then fails with ZeroDivisionError in the first fold, before any
    weight matrix is stored. *)
Theorem train_noise_one (L : mDALayer) (corpus : list doc) (chunksize : nat) :
  well_formed L -> may_train L -> noise L = 1 ->
  corpus <> [] -> (0 < chunksize)%nat ->
  train lstsq L corpus chunksize = (Raise ZeroDivisionError, []).
Proof.
  intros HW Hmay Hn Hne Hc. unfold train. rewrite (train_guard_false L Hmay).
  pose proof (length_accumulate L corpus chunksize HW Hne Hc) as Hlen.
  pose proof (well_formed_folds L HW) as HK.
  destruct (grouper_spec corpus chunksize Hc) as [chunks [Hg _]].
  rewrite Hg in *. cbn [fst] in Hlen.
  assert (HK0 : (num_folds L =? 0)%nat = false) by (apply Nat.eqb_neq; lia).
  rewrite HK0. cbn [andb].
  destruct (accumulate L chunks) as [|acc accs]; [simpl in Hlen; lia|].
  cbn [solve_folds]. rewrite fold_weights_noise_one by exact Hn. reflexivity.
Qed.


(** Whenever [train] returns normally, the layer it leaves differs from the
    one it started with only in [blocks], and there only by matrices added
    at the end, one per accumulated fold. *)
Theorem train_only_appends (L L' : mDALayer) (corpus rest : list doc)
  (chunksize : nat) :
  train lstsq L corpus chunksize = (Ok L', rest) ->
  exists new,
    L' = with_blocks L (blocks L ++ new) /\
    length new = length (accumulate L (fst (grouper corpus chunksize))).
Proof.
  intros H. destruct (train_inv lstsq L corpus chunksize L' rest H)
    as [_ [bs [Hsolve HL']]].
  destruct (solve_folds_inv lstsq L _
              (proj2 (accumulate_trace_good L (fst (grouper corpus chunksize)) []
                        ltac:(constructor))) _ _ Hsolve) as [Hbs _].
  exists (map (system_weights lstsq L) (accumulate L (fst (grouper corpus chunksize)))).
  split; [rewrite HL'; f_equal; exact Hbs|apply length_map].
Qed.

End TrainEdges.

Lemma train_empty_corpus_witness :
  exists L',
    train (fun _ B => B) (layer1 (1 / 2) 0) [] 7 = (Ok L', []) /\
    blocks L' = blocks (layer1 (1 / 2) 0) /\
    (blocks (layer1 (1 / 2) 0) = [] -> (1 <= num_folds (layer1 (1 / 2) 0))%nat ->
     forall input, get_hidden_representations L' input = Raise IndexError).
Proof.
  apply (train_empty_corpus (fun _ B => B) (layer1 (1 / 2) 0) 7).
  left. reflexivity.
Defined.

Lemma train_noise_one_witness :
  train (fun _ B => B) (layer1 1 0) [[1]; [2]] 1 = (Raise ZeroDivisionError, []).
Proof.
  apply (train_noise_one (fun _ B => B) (layer1 1 0) [[1]; [2]] 1).
  - apply well_formed_layer1.
  - left. reflexivity.
  - reflexivity.
  - discriminate.
  - lia.
Defined.


Lemma train_only_appends_witness :
  exists new,
    with_blocks (layer1 (1 / 2) 0)
      (blocks (layer1 (1 / 2) 0)
       ++ map (system_weights (fun _ B => B) (layer1 (1 / 2) 0))
              (accumulate (layer1 (1 / 2) 0) (fst (grouper [[1]] 1))))
    = with_blocks (layer1 (1 / 2) 0) (blocks (layer1 (1 / 2) 0) ++ new) /\
    length new = length (accumulate (layer1 (1 / 2) 0) (fst (grouper [[1]] 1))).
Proof.
  apply (train_only_appends (fun _ B => B) (layer1 (1 / 2) 0) _ [[1]]
           (snd (grouper [[1]] 1)) 1).
  apply train_Ok.
  - simpl. lra.
  - left. reflexivity.
  - simpl. lia.
Defined.

(** ** The corrupted second moment and the system matrix *)

Lemma compute_Q_shaped noise0 (S : matrix) :
  (0 < nrows S)%nat -> shaped (nrows S) (ncols S) (compute_Q noise0 S).
Proof.
  intros Hn. unfold compute_Q, set_diag, set_entry, set_col, set_row, scale.
  mshape. apply shaped_mk.
Qed.

Lemma symmetric_of_entries n (X : matrix) :
  (0 < n)%nat -> shaped n n X ->
  (forall i j, (i < n)%nat -> (j < n)%nat -> get X i j = get X j i) ->
  symmetric X.
Proof.
  intros Hn HX Hsym. unfold symmetric, transpose.
  rewrite (shaped_nrows n n X HX), (shaped_ncols n n X Hn HX).
  transitivity (mk n n (get X)); [|apply mk_get; exact HX].
  apply mk_ext. intros i j Hi Hj. apply Hsym; assumption.
Qed.

Lemma compute_Q_regions_witness :
  let S := [[1; 2; 3]; [2; 5; 6]; [3; 6; 9]] in
  (0%nat <> 1%nat ->
   get (compute_Q (1 / 2) S) 0 1 = (1 - 1 / 2) ^ 2 * get S 0 1) /\
  get (compute_Q (1 / 2) S) 0 0 = (1 - 1 / 2) * get S 0 0 /\
  get (compute_Q (1 / 2) S) (nrows S - 1) (nrows S - 1)
    = get S (nrows S - 1) (nrows S - 1) /\
  get (compute_Q (1 / 2) S) (nrows S - 1) 0
    = get S (nrows S - 1) 0 * (1 / (1 - 1 / 2)) /\
  get (compute_Q (1 / 2) S) 0 (nrows S - 1)
    = get S 0 (nrows S - 1) * (1 / (1 - 1 / 2)).
Proof.
  intros S.
  apply (compute_Q_regions (1 / 2) S 0 1); [reflexivity|simpl; lia|simpl; lia].
Defined.

(** For a square symmetric scatter matrix, [Q] is symmetric and so is the
    system matrix [Q + reg] handed to the solver, as the comments of
    [_computeWeights] take for granted. *)
Theorem system_matrix_symmetric noise0 lambda0 (n : nat) (S : matrix) :
  (0 < n)%nat -> shaped n n S ->
  (forall i j, get S i j = get S j i) ->
  symmetric (compute_Q noise0 S) /\
  symmetric (madd (compute_Q noise0 S) (compute_reg lambda0 (nrows S - 1))).
Proof.
  intros Hn HS Hsym.
  pose proof (shaped_nrows n n S HS) as Hr.
  pose proof (shaped_ncols n n S Hn HS) as Hc.
  assert (HQ : shaped n n (compute_Q noise0 S)).
  { pose proof (compute_Q_shaped noise0 S ltac:(lia)) as H.
    rewrite Hr, Hc in H. exact H. }
  assert (HQsym : forall i j, (i < n)%nat -> (j < n)%nat ->
            get (compute_Q noise0 S) i j = get (compute_Q noise0 S) j i).
  { intros i j Hi Hj. rewrite !compute_Q_entry by lia.
    rewrite (Nat.eqb_sym j i), (orb_comm (j =? nrows S - 1)%nat).
    destruct (Nat.eqb_spec i j) as [E|E]; [subst; reflexivity|].
    rewrite (Hsym i j). reflexivity. }
  split.
  - apply (symmetric_of_entries n); assumption.
  - apply (symmetric_of_entries n); [exact Hn| |].
    + unfold madd. rewrite (shaped_nrows n n _ HQ), (shaped_ncols n n _ Hn HQ).
      apply shaped_mk.
    + intros i j Hi Hj. unfold madd.
      rewrite (shaped_nrows n n _ HQ), (shaped_ncols n n _ Hn HQ).
      rewrite !get_mk by assumption. rewrite (HQsym i j Hi Hj).
      rewrite !get_compute_reg. rewrite (Nat.eqb_sym j i).
      destruct (Nat.eqb_spec i j) as [E|E]; [subst; reflexivity|reflexivity].
Qed.

Lemma system_matrix_symmetric_witness :
  symmetric (compute_Q (1 / 2) [[1; 1]; [1; 1]]) /\
  symmetric (madd (compute_Q (1 / 2) [[1; 1]; [1; 1]])
                  (compute_reg (1 / 100) (nrows [[1; 1]; [1; 1]] - 1))).
Proof.
  apply (system_matrix_symmetric (1 / 2) (1 / 100) 2 [[1; 1]; [1; 1]]).
  - lia.
  - split; [reflexivity|]. repeat constructor.
  - intros i j. unfold get.
    destruct i as [|[|i]]; destruct j as [|[|j]]; simpl; try reflexivity;
      repeat match goal with
             | |- context [nth ?k [] _] => is_var k; destruct k; simpl
             | |- context [match ?k with O => _ | S _ => _ end] =>
                 is_var k; destruct k; simpl
             end; reflexivity.
Defined.

(** [Q] is additive in the scatter matrix: the corrupted second moment of a
    sum of scatter matrices of one shape is the sum of their corrupted
    second moments, so deriving [Q] once from the accumulated scatter is
    deriving it per chunk and adding up. *)
Theorem compute_Q_additive noise0 (n : nat) (S1 S2 : matrix) :
  (0 < n)%nat -> shaped n n S1 -> shaped n n S2 ->
  compute_Q noise0 (madd S1 S2)
  = madd (compute_Q noise0 S1) (compute_Q noise0 S2).
Proof.
  intros Hn H1 H2.
  pose proof (shaped_nrows n n S1 H1) as Hr1.
  pose proof (shaped_ncols n n S1 Hn H1) as Hc1.
  pose proof (shaped_nrows n n S2 H2) as Hr2.
  pose proof (shaped_ncols n n S2 Hn H2) as Hc2.
  assert (H12 : shaped n n (madd S1 S2))
    by (unfold madd; rewrite Hr1, Hc1; apply shaped_mk).
  pose proof (shaped_nrows n n _ H12) as Hr12.
  pose proof (shaped_ncols n n _ Hn H12) as Hc12.
  assert (HQ1 : shaped n n (compute_Q noise0 S1)).
  { pose proof (compute_Q_shaped noise0 S1 ltac:(lia)) as H.
    rewrite Hr1, Hc1 in H. exact H. }
  assert (HQ12 : shaped n n (compute_Q noise0 (madd S1 S2))).
  { pose proof (compute_Q_shaped noise0 (madd S1 S2) ltac:(lia)) as H.
    rewrite Hr12, Hc12 in H. exact H. }
  apply (shaped_ext n n); [exact HQ12| |].
  - unfold madd at 1. rewrite (shaped_nrows n n _ HQ1), (shaped_ncols n n _ Hn HQ1).
    apply shaped_mk.
  - intros i j Hi Hj. unfold madd at 2.
    rewrite (shaped_nrows n n _ HQ1), (shaped_ncols n n _ Hn HQ1).
    rewrite get_mk by assumption.
    rewrite !compute_Q_entry by lia.
    rewrite Hr12, Hr1, Hr2.
    assert (Hadd : forall a b, (a < n)%nat -> (b < n)%nat ->
              get (madd S1 S2) a b = get S1 a b + get S2 a b).
    { intros a b Ha Hb. unfold madd. rewrite Hr1, Hc1. apply get_mk; assumption. }
    rewrite !Hadd by assumption.
    destruct (i =? j)%nat; [destruct (i =? n - 1)%nat; ring|].
    destruct ((i =? n - 1) || (j =? n - 1))%nat; ring.
Qed.

Lemma compute_Q_additive_witness :
  compute_Q (1 / 2) (madd [[1; 1]; [1; 1]] [[4; 2]; [2; 1]])
  = madd (compute_Q (1 / 2) [[1; 1]; [1; 1]]) (compute_Q (1 / 2) [[4; 2]; [2; 1]]).
Proof.
  apply (compute_Q_additive (1 / 2) 2).
  - lia.
  - split; [reflexivity|]. repeat constructor.
  - split; [reflexivity|]. repeat constructor.
Defined.

(** ** What the bias row of a scatter matrix holds *)

Lemma Rsum_const_one {A : Type} (l : list A) :
  Rsum (map (fun _ => 1 * 1) l) = INR (length l).
Proof.
  induction l as [|x l IH]; [reflexivity|].
  cbn [map Rsum fold_right length]. fold (Rsum (map (fun _ : A => 1 * 1) l)).
  rewrite IH, S_INR. lra.
Qed.

Lemma nth_target_of (block : list nat) (d : doc) (i : nat) :
  (i < length block)%nat ->
  nth i (target_of block d) 0 = nth (nth i block 0%nat) d 0.
Proof.
  intros Hi. unfold target_of.
  rewrite (nth_indep (map (fun i0 => nth i0 d 0) block) 0
                     ((fun i0 => nth i0 d 0) 0%nat))
    by (rewrite length_map; exact Hi).
  apply (map_nth (fun i0 => nth i0 d 0)).
Qed.

(** After a pass over a non-empty corpus the bias corner of every fold's
    stored scatter matrix is 0, as [np.zeros] left it.  The matrix that
    [scatter += ...] computes from a stored one for a chunk has the number
    of documents of that chunk at its bias corner, and its bias row and
    column hold, for each dimension of the fold, the sum of that dimension's
    weights over the chunk. *)
Theorem scatter_bias_counts (L : mDALayer) (corpus : list doc)
  (chunksize : nat) (chunk : list doc) (f : nat) :
  well_formed L -> corpus <> [] -> (0 < chunksize)%nat ->
  chunk <> [] -> (f < num_folds L)%nat ->
  let st := accumulate L (fst (grouper corpus chunksize)) in
  let stored := fst (nth f st ([], None)) in
  let scatter :=
    fst (snd (fold_body L
                (fst (dual_item (input_dimensionality L) (prototype_ids L) chunk))
                (snd (dual_item (input_dimensionality L) (prototype_ids L) chunk))
                st f)) in
  let block := fold_indices L f in
  get stored (length block) (length block) = 0 /\
  get scatter (length block) (length block) = INR (length chunk) /\
  forall i, (i < length block)%nat ->
    get scatter i (length block)
      = Rsum (map (fun d : doc => nth (nth i block 0%nat) d 0) chunk) /\
    get scatter (length block) i = get scatter i (length block).
Proof.
  intros HW Hne Hc Hch Hf st stored scatter block. unfold stored, scatter, st.
  rewrite accumulation_zero by assumption.
  split.
  { unfold zero_accumulators. rewrite nth_map_seq by exact Hf.
    cbn [fst]. apply null_zeros. }
  rewrite first_chunk_local by assumption.
  fold block. rewrite scatter_sum_eq.
  assert (Hbias : forall d, nth (length block) (augmented block d) 0 = 1).
  { intros d. rewrite nth_augmented, Nat.ltb_irrefl, Nat.eqb_refl. reflexivity. }
  split.
  - rewrite get_mk by lia.
    rewrite <- (Rsum_const_one chunk). apply Rsum_map_ext.
    intros d _. rewrite Hbias. reflexivity.
  - intros i Hi.
    assert (Hi' : forall d, nth i (augmented block d) 0 = nth (nth i block 0%nat) d 0).
    { intros d. rewrite nth_augmented.
      assert (E : (i <? length block)%nat = true) by (apply Nat.ltb_lt; exact Hi).
      rewrite E. apply nth_target_of. exact Hi. }
    rewrite !get_mk by lia. split.
    + apply Rsum_map_ext. intros d _. rewrite Hbias, Hi'. ring.
    + apply Rsum_map_ext. intros d _. ring.
Qed.

Lemma scatter_bias_counts_witness :
  let L := layer2 0 0 in
  let st := accumulate L (fst (grouper [[1; 2]; [3; 4]; [5; 6]] 2)) in
  get (fst (nth 0 st ([], None)))
      (length (fold_indices L 0)) (length (fold_indices L 0)) = 0 /\
  get (fst (snd (fold_body L
                   (fst (dual_item (input_dimensionality L) (prototype_ids L)
                                   [[1; 2]; [3; 4]]))
                   (snd (dual_item (input_dimensionality L) (prototype_ids L)
                                   [[1; 2]; [3; 4]]))
                   st 0)))
      (length (fold_indices L 0)) (length (fold_indices L 0))
  = INR (length [[1; 2]; [3; 4]]).
Proof.
  intros L st.
  destruct (scatter_bias_counts L [[1; 2]; [3; 4]; [5; 6]] 2 [[1; 2]; [3; 4]] 0
              (well_formed_layer2 0 0) ltac:(discriminate) ltac:(lia)
              ltac:(discriminate) ltac:(simpl; lia)) as [H0 [H1 _]].
  split; [exact H0|exact H1].
Defined.

(** ** The hidden representation of one fold *)

Lemma get_vstack_ones (X : matrix) (s nd c j : nat) :
  shaped s nd X -> (j < nd)%nat ->
  get (vstack X (ones 1 nd)) c j
  = if (c <? s)%nat then get X c j else if (c =? s)%nat then 1 else 0.
Proof.
  intros [Hl Hf] Hj. unfold vstack, get.
  destruct (Nat.ltb_spec c s) as [Hc|Hc].
  - rewrite app_nth1 by lia. reflexivity.
  - rewrite app_nth2 by lia. rewrite Hl.
    destruct (Nat.eqb_spec c s) as [E|E].
    + subst c. rewrite Nat.sub_diag.
      change (get (ones 1 nd) 0 j = 1). unfold ones. apply get_mk; lia.
    + destruct (c - s)%nat as [|[|q]] eqn:Ed; [lia| |]; simpl; destruct j; reflexivity.
Qed.

Lemma intermediate_entries (W X : matrix) (s nd : nat) :
  (0 < s)%nat -> shaped s nd X -> ncols W = (s + 1)%nat ->
  get_intermediate_representations W X
  = mk (nrows W) nd
       (fun i j => sum_upto s (fun c => get W i c * get X c j) + get W i s).
Proof.
  intros Hs HX HW. unfold get_intermediate_representations.
  rewrite (shaped_ncols s nd X Hs HX).
  assert (Hnc : ncols (vstack X (ones 1 nd)) = nd).
  { unfold vstack, ncols. destruct HX as [Hl Hf].
    destruct X as [|row X]; [simpl in Hl; lia|]. simpl. inversion Hf; assumption. }
  unfold mmul. rewrite Hnc, HW. apply mk_ext. intros i j Hi Hj.
  replace (s + 1)%nat with (S s) by lia. rewrite sum_upto_S.
  rewrite (get_vstack_ones X s nd s j HX Hj), Nat.ltb_irrefl, Nat.eqb_refl.
  rewrite Rmult_1_r. f_equal.
  apply sum_upto_ext. intros c Hc.
  rewrite (get_vstack_ones X s nd c j HX Hj).
  assert (E : (c <? s)%nat = true) by (apply Nat.ltb_lt; exact Hc).
  rewrite E. reflexivity.
Qed.

(** [_get_intermediate_representations] is the affine map whose linear part
    is the weight matrix without its last column and whose offset is that
    last column: on [s] input rows and weights of [s + 1] columns, entry
    [(i, j)] of the result is the sum over [c < s] of
    [weights[i, c] * data[c, j]], plus [weights[i, s]]. *)
Theorem intermediate_affine (W X : matrix) (s nd : nat) :
  (0 < s)%nat -> shaped s nd X -> ncols W = (s + 1)%nat ->
  get_intermediate_representations W X
  = mk (nrows W) nd
       (fun i j => sum_upto s (fun c => get W i c * get X c j) + get W i s).
Proof. apply intermediate_entries. Qed.

Lemma intermediate_affine_witness :
  get_intermediate_representations [[2; 3; 4]] [[5]; [6]]
  = mk (nrows [[2; 3; 4]]) 1
       (fun i j => sum_upto 2 (fun c => get [[2; 3; 4]] i c * get [[5]; [6]] c j)
                   + get [[2; 3; 4]] i 2).
Proof.
  apply (intermediate_affine [[2; 3; 4]] [[5]; [6]] 2 1).
  - lia.
  - split; [reflexivity|]. repeat constructor.
  - reflexivity.
Defined.

(** ** A layer without reduction *)

Lemma rows_at_all (X : matrix) (n : nat) :
  length X = n -> rows_at X (seq 0 n) = X.
Proof. intros <-. unfold rows_at. apply list_eq_nth. Qed.

Lemma mmap_mk g n m f : mmap g (mk n m f) = mk n m (fun i j => g (f i j)).
Proof.
  unfold mmap, mk. rewrite map_map. apply map_ext. intros i.
  rewrite map_map. reflexivity.
Qed.

(** A layer built without reduction and given one weight matrix of
    [input_dimensionality + 1] columns transforms every document [x] (a
    column of the input) into [tanh(A x + b)], [A] being the weight matrix
    without its last column and [b] that last column. *)
Theorem no_reduction_inference noise0 lambda0 (n : nat) protos perm
  (L0 : mDALayer) (W input : matrix) (nd : nat) :
  init noise0 lambda0 n None protos perm = Ok L0 ->
  ncols W = (n + 1)%nat -> shaped n nd input ->
  get_hidden_representations (with_blocks L0 [W]) input
  = Ok (mk (nrows W) nd
           (fun i j => tanh (sum_upto n (fun c => get W i c * get input c j)
                             + get W i n))).
Proof.
  intros Hinit HW Hin. apply init_Ok in Hinit.
  destruct Hinit as (Hn & Hout & Hnf & _ & _ & _ & _ & Ho & Hidx).
  assert (Hpos : (0 < n)%nat) by lia.
  assert (HK : num_folds L0 = 1%nat).
  { rewrite Hnf, Ho. apply ceil_div_same. exact Hpos. }
  unfold get_hidden_representations. cbn [num_folds with_blocks].
  rewrite HK. cbn [seq hidden_loop]. unfold hidden_step.
  cbn [blocks with_blocks nth_error].
  assert (Hfold : fold_indices (with_blocks L0 [W]) 0 = seq 0 n).
  { unfold fold_indices. cbn [randomized_indices output_dimensionality with_blocks].
    rewrite Hidx, Ho. unfold py_slice. simpl. rewrite Nat.add_0_r, Nat.sub_0_r.
    apply firstn_all2. rewrite length_seq. lia. }
  rewrite Hfold. rewrite (rows_at_all input n (proj1 Hin)).
  rewrite (intermediate_entries W input n nd Hpos Hin HW).
  rewrite mmap_mk. reflexivity.
Qed.

Lemma no_reduction_inference_witness :
  get_hidden_representations (with_blocks (layer2 0 0) [[[2; 3; 4]]]) [[5]; [6]]
  = Ok (mk (nrows [[2; 3; 4]]) 1
           (fun i j => tanh (sum_upto 2 (fun c => get [[2; 3; 4]] i c
                                                   * get [[5]; [6]] c j)
                             + get [[2; 3; 4]] i 2))).
Proof.
  apply (no_reduction_inference 0 0 2 None [] (layer2 0 0) [[2; 3; 4]] [[5]; [6]] 1).
  - reflexivity.
  - reflexivity.
  - split; [reflexivity|]. repeat constructor.
Defined.

(** ** Transforming a corpus *)

Lemma hidden_representation_formula (L : mDALayer) (input : matrix) (nd o : nat) :
  well_formed L -> shaped (input_dimensionality L) nd input -> trained L o ->
  get_hidden_representations L input
  = Ok (mk o nd (fun i j =>
          tanh (sum_upto (num_folds L) (fun k => get (fold_hidden L input k) i j)
                / INR (num_folds L)))).
Proof.
  intros HC Hin HT.
  assert (Hloop : hidden_loop L input None (seq 0 (num_folds L))
                  = Ok (Some (mean_hidden L input o nd (num_folds L)))).
  { destruct HT as [HK HW]. destruct (num_folds L) as [|m] eqn:EK; [lia|].
    apply (hidden_loop_mean L input (input_dimensionality L) nd o HC eq_refl Hin).
    - split; [lia|]. rewrite EK. exact HW.
    - lia. }
  unfold get_hidden_representations. rewrite Hloop. f_equal.
  unfold mean_hidden. apply mmap_mk.
Qed.

(** On a densified chunk, entry [(i, j)] of a fold's hidden representation
    depends on document [j] alone. *)
Lemma fold_hidden_chunk (L : mDALayer) (chunk : list doc) (o k i j : nat) :
  well_formed L -> trained L o -> (k < num_folds L)%nat ->
  (i < o)%nat -> (j < length chunk)%nat ->
  get (fold_hidden L (corpus2dense chunk (input_dimensionality L)) k) i j
  = sum_upto (length (fold_indices L k) + 1) (fun c =>
      get (nth k (blocks L) []) i c
      * nth c (augmented (fold_indices L k) (nth j chunk [])) 0).
Proof.
  intros HW HT Hk Hi Hj.
  destruct (fold_valid L k HW Hk) as [Hne Hv].
  destruct HT as [_ HWk]. destruct (HWk k Hk) as [W [HWe [Hrows Hcols]]].
  assert (Hn : (0 < input_dimensionality L)%nat) by (destruct HW; assumption).
  assert (Hnc : ncols (corpus2dense chunk (input_dimensionality L)) = length chunk).
  { unfold corpus2dense. apply ncols_mk. exact Hn. }
  unfold fold_hidden. rewrite Hnc, (nth_error_nth _ _ _ HWe).
  change (corpus2dense chunk (input_dimensionality L))
    with (corpus2csc chunk (input_dimensionality L)).
  rewrite <- (ncols_rows_at_csc chunk (input_dimensionality L) (fold_indices L k)
                Hne Hv) at 1.
  unfold mmul. rewrite Hrows, Hcols.
  rewrite (ncols_input_chunk (input_dimensionality L) (fold_indices L k) chunk Hne Hv).
  rewrite get_mk by assumption.
  apply sum_upto_ext. intros c Hc. f_equal.
  apply (get_input_chunk (input_dimensionality L) (fold_indices L k) chunk Hne Hv);
    lia.
Qed.

Section TransformFacts.

Variable V : Type.
Variable any2sparse : list R -> V.

Lemma transformed_chunk (L : mDALayer) (o : nat) (numpy_output : bool)
  (chunk : list doc) :
  well_formed L -> trained L o -> (1 <= o)%nat ->
  exists hidden,
    get_hidden_representations L (corpus2dense chunk (input_dimensionality L))
      = Ok hidden /\
    map (emit V any2sparse numpy_output) (transpose hidden)
      = map (fun d => emit V any2sparse numpy_output (transform_doc L o d)) chunk.
Proof.
  intros HW HT Ho. eexists. split.
  - apply (hidden_representation_formula L _ (length chunk) o HW); [|exact HT].
    unfold corpus2dense. apply shaped_mk.
  - rewrite transpose_mk by lia. unfold mk. rewrite map_map.
    rewrite <- (map_nth_seq ([] : doc)
                  (fun d : doc => emit V any2sparse numpy_output (transform_doc L o d))
                  chunk).
    apply map_ext_in. intros j Hj. apply in_seq in Hj. f_equal.
    unfold transform_doc. apply map_ext_in. intros i Hi. apply in_seq in Hi.
    f_equal. f_equal. apply sum_upto_ext. intros k Hk.
    apply (fold_hidden_chunk L chunk o); try assumption; lia.
Qed.

Lemma transformed_chunks_all (L : mDALayer) (o : nat) (numpy_output : bool)
  (chunks : list (list doc)) :
  well_formed L -> trained L o -> (1 <= o)%nat ->
  transformed_chunks V any2sparse L numpy_output chunks
  = (map (fun d => emit V any2sparse numpy_output (transform_doc L o d))
         (concat chunks), None).
Proof.
  intros HW HT Ho. induction chunks as [|chunk chunks IH]; [reflexivity|].
  cbn [transformed_chunks concat].
  destruct (transformed_chunk L o numpy_output chunk HW HT Ho) as [hidden [Hh Hm]].
  rewrite Hh, IH, Hm, map_app. reflexivity.
Qed.

(** On a well-formed trained layer the transformed corpus has one output
    per document, in corpus order, each the transformation of that document
    alone, and the generator ends without an exception: the outputs do not
    depend on the chunk size nor on the other documents of the chunk. *)
Theorem transformed_corpus_documentwise (L : mDALayer) (o : nat)
  (input_data : list doc) (chunksize : nat) (numpy_output : bool) :
  well_formed L -> trained L o -> (1 <= o)%nat -> (0 < chunksize)%nat ->
  transformed_corpus V any2sparse L input_data chunksize numpy_output
  = (map (fun d => emit V any2sparse numpy_output (transform_doc L o d)) input_data,
     None).
Proof.
  intros HW HT Ho Hc. unfold transformed_corpus.
  destruct (grouper_spec input_data chunksize Hc) as [chunks [Hg [Hcat _]]].
  rewrite Hg. cbn [fst]. rewrite (transformed_chunks_all L o) by assumption.
  rewrite Hcat. reflexivity.
Qed.

(** On a single document, [__getitem__] returns the transformation of that
    document. *)
Theorem getitem_single_document (L : mDALayer) (o : nat) (d : doc)
  (chunksize : nat) (numpy_output : bool) :
  well_formed L -> trained L o -> (1 <= o)%nat -> (0 < chunksize)%nat ->
  getitem_document V any2sparse L d chunksize numpy_output
  = Ok (emit V any2sparse numpy_output (transform_doc L o d)).
Proof.
  intros HW HT Ho Hc. unfold getitem_document, transformed_corpus.
  destruct (grouper_spec [d] chunksize Hc) as [chunks [Hg [Hcat _]]].
  rewrite Hg. cbn [fst]. rewrite (transformed_chunks_all L o) by assumption.
  rewrite Hcat. reflexivity.
Qed.

(** Transforming the empty corpus yields nothing and raises nothing, whatever
    the layer; on a layer that lacks weights, a non-empty corpus yields
    nothing before the generator raises IndexError at the first chunk. *)
Theorem transformed_corpus_edges (L : mDALayer) (input_data : list doc)
  (chunksize : nat) (numpy_output : bool) :
  transformed_corpus V any2sparse L [] chunksize numpy_output = ([], None) /\
  ((length (blocks L) < num_folds L)%nat -> input_data <> [] ->
   (0 < chunksize)%nat ->
   transformed_corpus V any2sparse L input_data chunksize numpy_output
   = ([], Some IndexError)).
Proof.
  split.
  - unfold transformed_corpus, grouper. cbn [length grouper_loop].
    rewrite firstn_nil. reflexivity.
  - intros Hb Hne Hc. unfold transformed_corpus.
    destruct (grouper_spec input_data chunksize Hc) as [chunks [Hg [Hcat _]]].
    rewrite Hg. cbn [fst].
    destruct chunks as [|chunk chunks]; [simpl in Hcat; congruence|].
    cbn [transformed_chunks].
    rewrite hidden_raises_index_error by exact Hb. reflexivity.
Qed.

End TransformFacts.

Lemma transformed_corpus_documentwise_witness :
  transformed_corpus (list R) (fun v => v)
    (with_blocks (layer1 0 0) [[[2; 3]]]) [[5]; [7]; [9]] 2 true
  = (map (fun d => emit (list R) (fun v => v) true
                     (transform_doc (with_blocks (layer1 0 0) [[[2; 3]]]) 1 d))
         [[5]; [7]; [9]], None).
Proof.
  apply (transformed_corpus_documentwise (list R) (fun v => v)
           (with_blocks (layer1 0 0) [[[2; 3]]]) 1 [[5]; [7]; [9]] 2 true).
  - exact (well_formed_layer1 0 0).
  - split; [simpl; lia|]. intros k Hk. simpl in Hk.
    assert (k = 0%nat) by lia. subst k.
    exists [[2; 3]]. repeat split; reflexivity.
  - lia.
  - lia.
Defined.

Lemma getitem_single_document_witness :
  getitem_document (list R) (fun v => v)
    (with_blocks (layer1 0 0) [[[2; 3]]]) [5] 10 false
  = Ok (emit (list R) (fun v => v) false
          (transform_doc (with_blocks (layer1 0 0) [[[2; 3]]]) 1 [5])).
Proof.
  apply (getitem_single_document (list R) (fun v => v)
           (with_blocks (layer1 0 0) [[[2; 3]]]) 1 [5] 10 false).
  - exact (well_formed_layer1 0 0).
  - split; [simpl; lia|]. intros k Hk. simpl in Hk.
    assert (k = 0%nat) by lia. subst k.
    exists [[2; 3]]. repeat split; reflexivity.
  - lia.
  - lia.
Defined.

Lemma transformed_corpus_edges_witness :
  transformed_corpus (list R) (fun v => v) (layer1 0 0) [[5]; [7]] 1 true
  = ([], Some IndexError).
Proof.
  apply (proj2 (transformed_corpus_edges (list R) (fun v => v) (layer1 0 0)
                  [[5]; [7]] 1 true)).
  - simpl. lia.
  - discriminate.
  - lia.
Defined.
